(** * MLBlocks: the [MLPipeline] class of [mlblocks/ml_pipeline/ml_pipeline.py]

  A shallow embedding of the pipeline's hyperparameter bookkeeping and of
  its fit / predict engine, together with the properties the
  specification states about them.

  Python dictionaries are modelled as insertion-ordered association lists
  (the order in which a [dict] is iterated decides which lookup fails first
  and which of two colliding keys wins).  [MLHyperparam] objects are
  mutable and shared between the steps and the lists handed around, so they
  live in an object store indexed by references.  A step is reached
  through [steps_dict] only, under its own name, and owns its two
  hyperparameter mappings, so the steps are kept by value in [steps_dict].
  A computation carries the pipeline, the object store and a record of the
  calls made to the steps' [fit] and [produce], and ends with a value or
  with an exception; what was changed before an exception stays changed. *)

From stdpp Require Import base option list strings.
From Stdlib Require Import ZArith QArith.
Close Scope Q_scope.

(** ** Python dictionaries *)

Module PyDict.

Abbreviation dict K V := (list (K * V)).

Section ops.
Context {K V : Type} `{EqDecision K}.

(** [d[k]] as an option; [None] stands for the [KeyError]. *)
Fixpoint getitem (d : dict K V) (k : K) : option V :=
  match d with
  | [] => None
  | (k', v) :: d' => if decide (k = k') then Some v else getitem d' k
  end.

(** [d[k] = v]: an existing key keeps its position, a new key goes last. *)
Fixpoint setitem (d : dict K V) (k : K) (v : V) : dict K V :=
  match d with
  | [] => [(k, v)]
  | (k', v') :: d' =>
      if decide (k = k') then (k', v) :: d' else (k', v') :: setitem d' k v
  end.

Definition keys (d : dict K V) : list K := d.*1.
Definition values (d : dict K V) : list V := d.*2.
Definition items (d : dict K V) : list (K * V) := d.

(** [k in d] *)
Definition contains (d : dict K V) (k : K) : bool :=
  match getitem d k with Some _ => true | None => false end.

(** [{k: v for (k, v) in l}] *)
Definition of_items (l : list (K * V)) : dict K V :=
  foldl (λ d kv, setitem d kv.1 kv.2) [] l.

(** The last binding of [k] in a list of pairs. *)
Definition last_binding (l : list (K * V)) (k : K) : option V :=
  getitem (reverse l) k.

Definition wf (d : dict K V) : Prop := NoDup (keys d).

End ops.

Section map_values.
Context {K V W : Type} `{EqDecision K}.

(** [for v in d.values(): ...] rewriting every value in place. *)
Definition map_values (f : V → W) (d : dict K V) : dict K W :=
  prod_map id f <$> d.

End map_values.

End PyDict.

Import PyDict.

(** ** Exceptions, and the monad of state and exceptions *)

(** The keys used in this file are strings and pairs of strings. *)
Inductive key :=
| KStr (s : string)
| KTuple (a b : string).

Inductive exn :=
| KeyError (k : key).

Inductive outcome (A : Type) :=
| Return (a : A)
| Raise (e : exn).
Arguments Return {A} a.
Arguments Raise {A} e.

Class PyKey (K : Type) := py_key : K → key.
#[global] Instance str_py_key : PyKey string := KStr.
#[global] Instance tuple_py_key : PyKey (string * string) := λ p, KTuple p.1 p.2.

(** A computation runs on a state and ends in a state, with a value or
  with an exception: what was mutated before a [raise] stays mutated. *)
Definition M (S A : Type) : Type := S → S * outcome A.

Section monad.
Context {S : Type}.

Definition ret {A} (a : A) : M S A := λ s, (s, Return a).
Definition raise {A} (e : exn) : M S A := λ s, (s, Raise e).
Definition bind {A B} (c : M S A) (k : A → M S B) : M S B :=
  λ s, match c s with
       | (s', Return a) => k a s'
       | (s', Raise e) => (s', Raise e)
       end.
Definition gets {A} (f : S → A) : M S A := λ s, (s, Return (f s)).
Definition modify (f : S → S) : M S unit := λ s, (f s, Return tt).
End monad.

Declare Scope py_scope.
Delimit Scope py_scope with py.
Notation "x <- c ;; k" := (bind c (λ x, k))
(at level 100, c at next level, right associativity) : py_scope.
Notation "c ;; k" := (bind c (λ _, k))
(at level 100, right associativity) : py_scope.
Open Scope py_scope.

Section loops.
Context {S : Type}.

(** [for x in l: body(x)] *)
Fixpoint for_each {X} (l : list X) (body : X → M S unit) : M S unit :=
  match l with
  | [] => ret tt
  | x :: l' => body x ;; for_each l' body
  end.

(** A loop that carries a local variable from one round to the next. *)
Fixpoint for_fold {X A} (l : list X) (a : A) (body : A → X → M S A) : M S A :=
  match l with
  | [] => ret a
  | x :: l' => a' <- body a x ;; for_fold l' a' body
  end.

(** [d[k]], raising [KeyError] *)
Definition subscript {K V} `{EqDecision K, PyKey K}
    (d : dict K V) (k : K) : M S V :=
  match getitem d k with
  | Some v => ret v
  | None => raise (KeyError (py_key k))
  end.

End loops.

(** ** The data model *)

(** A reference to an [MLHyperparam] object. *)
Definition ref := nat.

Section Pipeline.

(** Hyperparameter values and fit keyword arguments, the data and the
    labels handed to [fit] and [predict], the underlying models and their
    classes are opaque to the pipeline. *)
Context {Value Data Label Model Class : Type}.

(** [model.__class__], and a class called with keyword arguments. *)
Context (class_of : Model → Class).
Context (construct : Class → dict string ref → Model).

(** Modelled from the spec: the step class ([MLBlock]) is not part of
    this file's source.  Its contract is: [fit(data, labels, **kwargs)]
    has an effect on the step's model only, [produce(data)] is a function
    of the step's model and the data, and [update_model(fixed, tunable)]
    reconstructs the model from the two hyperparameter mappings. *)
Context (block_fit : Model → Data → Label → dict string Value → Model).
Context (block_produce : Model → Data → Data).
Context (block_update_model :
           Model → dict string Value → dict string ref → Model).

Record MLHyperparam := mkMLHyperparam {
  step_name : string;
  param_name : string;
  value : Value
}.

Record MLBlock := mkMLBlock {
  name : string;
  model : Model;
  fixed_hyperparams : dict string Value;
  tunable_hyperparams : dict string ref
}.

Record MLPipeline := mkMLPipeline {
  steps_dict : dict string MLBlock;
  dataflow : list string
}.

(** The calls that reach the steps, in the order they are made. *)
Inductive call :=
  | CallFit (step : string) (x : Data) (y : Label) (kwargs : dict string Value)
  | CallProduce (step : string) (x : Data).

(** The pipeline object, the store of hyperparameter objects, and the
    calls made to the steps so far. *)
Record world := mkWorld {
  self : MLPipeline;
  objects : ref → MLHyperparam;
  calls : list call
}.

Definition set_value (hp : MLHyperparam) (v : Value) : MLHyperparam :=
  mkMLHyperparam (step_name hp) (param_name hp) v.
Definition set_model (step : MLBlock) (m : Model) : MLBlock :=
  mkMLBlock (name step) m (fixed_hyperparams step) (tunable_hyperparams step).
Definition set_fixed (step : MLBlock) (d : dict string Value) : MLBlock :=
  mkMLBlock (name step) (model step) d (tunable_hyperparams step).
Definition set_tunable (step : MLBlock) (d : dict string ref) : MLBlock :=
  mkMLBlock (name step) (model step) (fixed_hyperparams step) d.
Definition set_steps (w : world) (d : dict string MLBlock) : world :=
  mkWorld (mkMLPipeline d (dataflow (self w))) (objects w) (calls w).
Definition set_object (w : world) (r : ref) (hp : MLHyperparam) : world :=
  mkWorld (self w) (λ r', if decide (r' = r) then hp else objects w r') (calls w).
Definition log (w : world) (c : call) : world :=
  mkWorld (self w) (objects w) (calls w ++ [c]).

(** ** The operations of [MLPipeline] *)

(** [MLPipeline.__init__(steps, dataflow)] *)
Definition init (steps : list MLBlock) (dataflow : option (list string)) : MLPipeline :=
  mkMLPipeline
    (of_items ((λ step, (name step, step)) <$> steps))
    (match dataflow with
     | Some df => df
     | None => name <$> steps
     end).

(** [self.steps_dict[step_name]] *)
Definition the_step (step_name : string) : M world MLBlock :=
  d <- gets (λ w, steps_dict (self w)) ;; subscript d step_name.

(** A step is one object, reached through [steps_dict]: assigning to one of
    its attributes changes the entry of [steps_dict]. *)
Definition assign_step (step_name : string) (step : MLBlock) : M world unit :=
  modify (λ w, set_steps w (setitem (steps_dict (self w)) step_name step)).

(** [MLPipeline.update_fixed_hyperparams(fixed_hyperparams)] *)
Definition update_fixed_hyperparams
    (fixed_hyperparams' : dict (string * string) Value) : M world unit :=
  for_each (keys fixed_hyperparams') (λ '(step_name, hyperparam_name),
    step <- the_step step_name ;;
    v <- subscript fixed_hyperparams' (step_name, hyperparam_name) ;;
    let step := set_fixed step (setitem (fixed_hyperparams step) hyperparam_name v) in
    let step := set_model step
      (block_update_model (model step) (fixed_hyperparams step)
         (tunable_hyperparams step)) in
    assign_step step_name step).

(** [step.model = step.model.__class__( **step.tunable_hyperparams)] *)
Definition rebuild (step : MLBlock) : MLBlock :=
  set_model step (construct (class_of (model step)) (tunable_hyperparams step)).

(** [MLPipeline.update_tunable_hyperparams(tunable_hyperparams)] *)
Definition update_tunable_hyperparams (tunable_hyperparams' : list ref) : M world unit :=
  for_each tunable_hyperparams' (λ hyperparam,
    hp <- gets (λ w, objects w hyperparam) ;;
    step <- the_step (step_name hp) ;;
    assign_step (step_name hp)
      (set_tunable step (setitem (tunable_hyperparams step) (param_name hp) hyperparam))) ;;
  modify (λ w, set_steps w (map_values rebuild (steps_dict (self w)))).

(** [MLPipeline.get_fixed_hyperparams()] *)
Definition get_fixed_hyperparams : M world (dict (string * string) Value) :=
  steps <- gets (λ w, values (steps_dict (self w))) ;;
  for_fold steps [] (λ acc step,
    for_fold (keys (fixed_hyperparams step)) acc (λ acc hp_name,
      v <- subscript (fixed_hyperparams step) hp_name ;;
      ret (setitem acc (name step, hp_name) v))).

(** [MLPipeline.get_tunable_hyperparams()]: the objects themselves, not
    copies of them. *)
Definition get_tunable_hyperparams : M world (list ref) :=
  steps <- gets (λ w, values (steps_dict (self w))) ;;
  ret (foldl (λ acc step, acc ++ values (tunable_hyperparams step)) [] steps).

(** [MLPipeline.set_from_hyperparam_dict(hyperparam_dict)]: [hp.value = ...]
    changes the object in the store. *)
Definition set_from_hyperparam_dict (hyperparam_dict : dict string Value) : M world unit :=
  all_tunable_hyperparams <- get_tunable_hyperparams ;;
  for_each all_tunable_hyperparams (λ r,
    hp <- gets (λ w, objects w r) ;;
    if contains hyperparam_dict (param_name hp)
    then v <- subscript hyperparam_dict (param_name hp) ;;
         modify (λ w, set_object w r (set_value hp v))
    else ret tt) ;;
  update_tunable_hyperparams all_tunable_hyperparams.

(** The first loop of [fit]: the keyword arguments of each step. *)
Definition fit_param_dict (fit_params : dict (string * string) Value)
    : M world (dict string (dict string Value)) :=
  df <- gets (λ w, dataflow (self w)) ;;
  for_fold (items fit_params) (of_items ((λ step_name, (step_name, [])) <$> df))
    (λ param_dict '(key, _),
      v <- subscript fit_params key ;;
      kwargs <- subscript param_dict key.1 ;;
      ret (setitem param_dict key.1 (setitem kwargs key.2 v))).

(** [MLPipeline.fit(x, y, fit_params)]: [step.fit] changes the model of the
    step, and [step.produce] is then asked of the fitted step. *)
Definition fit (x : Data) (y : Label) (fit_params : dict (string * string) Value)
    : M world unit :=
  param_dict <- fit_param_dict fit_params ;;
  df <- gets (λ w, dataflow (self w)) ;;
  for_fold df x (λ transformed_data step_name,
    step <- the_step step_name ;;
    kwargs <- subscript param_dict step_name ;;
    modify (λ w, log w (CallFit step_name transformed_data y kwargs)) ;;
    let step := set_model step (block_fit (model step) transformed_data y kwargs) in
    assign_step step_name step ;;
    modify (λ w, log w (CallProduce step_name transformed_data)) ;;
    ret (block_produce (model step) transformed_data)) ;;
  ret tt.

(** [MLPipeline.predict(x)] *)
Definition predict (x : Data) : M world Data :=
  df <- gets (λ w, dataflow (self w)) ;;
  for_fold df x (λ transformed_data step_name,
    step <- the_step step_name ;;
    modify (λ w, log w (CallProduce step_name transformed_data)) ;;
    ret (block_produce (model step) transformed_data)).

(** ['{0}__{1}'.format(step_name, param_name)] *)
Definition format (step_name param_name : string) : string :=
  step_name +:+ "__" +:+ param_name.

(** [MLPipeline.to_dict()] *)
Definition to_dict : M world (dict string Value) :=
  all_tunable_hyperparams <- get_tunable_hyperparams ;;
  σ <- gets objects ;;
  ret (of_items ((λ r, (format (step_name (σ r)) (param_name (σ r)), value (σ r)))
                   <$> all_tunable_hyperparams)).

(** ** What the specification says, in its own terms *)

(** The [produce] of the step that [steps_dict] has under a name. *)
Definition produce_of (p : MLPipeline) (step_name : string) (x : Data) : Data :=
  match getitem (steps_dict p) step_name with
  | Some step => block_produce (model step) x
  | None => x
  end.

(** The [produce] calls of a chain of steps, each fed the output of the one
    before. *)
Fixpoint produce_calls (p : MLPipeline) (names : list string) (x : Data) : list call :=
  match names with
  | [] => []
  | n :: names' => CallProduce n x :: produce_calls p names' (produce_of p n x)
  end.

(** The keyword arguments of one step: the entries of [fit_params] whose key
    has that step's name, under their parameter names; none, when
    [fit_params] has no such entry. *)
Definition kwargs_round (fit_params : dict (string * string) Value) (n : string)
    (kwargs : dict string Value) (item : (string * string) * Value) : dict string Value :=
  if decide (item.1.1 = n)
  then match getitem fit_params item.1 with
       | Some v => setitem kwargs item.1.2 v
       | None => kwargs
       end
  else kwargs.

Definition step_kwargs (fit_params : dict (string * string) Value) (n : string)
    : dict string Value :=
  foldl (kwargs_round fit_params n) [] (items fit_params).

(** The rounds of [fit] over a chain of steps: each step is fitted on the
    current data, the labels and its keyword arguments, then asked to
    produce on the same data, and its output goes to the next step.  The
    result is the steps as [fit] leaves them and the calls made. *)
Fixpoint fit_rounds (y : Label) (kwargs : string → dict string Value)
    (names : list string) (steps : dict string MLBlock) (x : Data)
    : dict string MLBlock * list call :=
  match names with
  | [] => (steps, [])
  | n :: names' =>
      match getitem steps n with
      | Some step =>
          let step' := set_model step (block_fit (model step) x y (kwargs n)) in
          let rest := fit_rounds y kwargs names' (setitem steps n step')
                        (block_produce (model step') x) in
          (rest.1, CallFit n x y (kwargs n) :: CallProduce n x :: rest.2)
      | None => (steps, [])
      end
  end.

(** One entry of [update_fixed_hyperparams] applied to a step: the fixed
    hyperparameter is overwritten and the model refreshed from the fixed and
    the tunable hyperparameters. *)
Definition with_fixed_hyperparam (step : MLBlock) (hp_name : string) (v : Value) : MLBlock :=
  let fixed := setitem (fixed_hyperparams step) hp_name v in
  mkMLBlock (name step)
    (block_update_model (model step) fixed (tunable_hyperparams step))
    fixed (tunable_hyperparams step).

Definition fixed_round (fixed_hyperparams' : dict (string * string) Value)
    (steps : dict string MLBlock) (k : string * string) : dict string MLBlock :=
  match getitem steps k.1, getitem fixed_hyperparams' k with
  | Some step, Some v => setitem steps k.1 (with_fixed_hyperparam step k.2 v)
  | _, _ => steps
  end.

(** One hyperparameter of [update_tunable_hyperparams] stored in its step. *)
Definition tunable_round (σ : ref → MLHyperparam)
    (steps : dict string MLBlock) (r : ref) : dict string MLBlock :=
  match getitem steps (step_name (σ r)) with
  | Some step =>
      setitem steps (step_name (σ r))
        (set_tunable step (setitem (tunable_hyperparams step) (param_name (σ r)) r))
  | None => steps
  end.

(** The tunable mapping of the step named [n] after the overwrites of a list
    of hyperparameters: each hyperparameter of that step is stored under
    its [param_name]. *)
Definition step_tunable (σ : ref → MLHyperparam) (n : string)
    (tunable : dict string ref) (hps : list ref) : dict string ref :=
  foldl (λ t r, if decide (step_name (σ r) = n)
                then setitem t (param_name (σ r)) r else t) tunable hps.

(** A hyperparameter object that some step of [steps] holds. *)
Definition held_by (steps : dict string MLBlock) (r : ref) : Prop :=
  ∃ n step q, (n, step) ∈ steps ∧ (q, r) ∈ tunable_hyperparams step.

(** The fixed hyperparameters of a list of steps, gathered under
    (step name, hyperparameter name). *)
Definition collect_fixed (steps : list MLBlock)
    (acc : dict (string * string) Value) : dict (string * string) Value :=
  foldl (λ acc step,
    foldl (λ acc hp_name,
      match getitem (fixed_hyperparams step) hp_name with
      | Some v => setitem acc (name step, hp_name) v
      | None => acc
      end) acc (keys (fixed_hyperparams step))) acc steps.

(** The tunable hyperparameters of all the steps, step after step. *)
Definition all_tunable (p : MLPipeline) : list ref :=
  foldl (λ acc step, acc ++ values (tunable_hyperparams step)) []
    (values (steps_dict p)).

(** What [set_from_hyperparam_dict] does to one hyperparameter. *)
Definition assigned (hyperparam_dict : dict string Value) (hp : MLHyperparam)
    : MLHyperparam :=
  match getitem hyperparam_dict (param_name hp) with
  | Some v => set_value hp v
  | None => hp
  end.

(** The key that [to_dict] gives a hyperparameter. *)
Definition dict_key (σ : ref → MLHyperparam) (r : ref) : string :=
  format (step_name (σ r)) (param_name (σ r)).

(** ** The invariants of the data model *)

(** [steps_dict] is a dictionary keyed by the names of its steps, and the
    hyperparameters of a step are dictionaries. *)
Definition pipeline_ok (p : MLPipeline) : Prop :=
  wf (steps_dict p) ∧
  Forall (λ entry, name entry.2 = entry.1
                   ∧ wf (fixed_hyperparams entry.2)
                   ∧ wf (tunable_hyperparams entry.2)) (steps_dict p).

(** A tunable hyperparameter knows the step that owns it and the name it is
    stored under. *)
Definition hyperparams_ok (σ : ref → MLHyperparam) (p : MLPipeline) : Prop :=
  Forall (λ entry,
    Forall (λ slot, step_name (σ slot.2) = entry.1 ∧ param_name (σ slot.2) = slot.1)
      (tunable_hyperparams entry.2)) (steps_dict p).

(** Every name of [dataflow] is a key of [steps_dict]. *)
Definition dataflow_ok (p : MLPipeline) : Prop :=
  Forall (λ n, n ∈ keys (steps_dict p)) (dataflow p).

Definition call_step (c : call) : string :=
  match c with
  | CallFit step _ _ _ => step
  | CallProduce step _ => step
  end.

Definition is_produce (c : call) : bool :=
  match c with
  | CallFit _ _ _ _ => false
  | CallProduce _ _ => true
  end.

End Pipeline.

(** ** Concrete pipelines *)

Module Demo.

(** A model that records what it was made of: its class, the fixed and the
    tunable hyperparameters it was given, and how often it was fitted. *)
Record primitive := mkPrimitive {
  cls : string;
  fixed_args : dict string Q;
  tunable_args : dict string ref;
  fitted : nat
}.

Definition class_of (m : primitive) : string := cls m.

Definition construct (c : string) (kwargs : dict string ref) : primitive :=
  mkPrimitive c [] kwargs 0.

Definition update_model (m : primitive) (fixed : dict string Q)
    (tunable : dict string ref) : primitive :=
  mkPrimitive (cls m) fixed tunable 0.

Definition fit (m : primitive) (x y : Z) (kwargs : dict string Q) : primitive :=
  mkPrimitive (cls m) (fixed_args m) (tunable_args m) (S (fitted m)).

(** Step A produces [x + 1], step B produces [x * 2]. *)
Definition produce (m : primitive) (x : Z) : Z :=
  if decide (cls m = "AddOne") then (x + 1)%Z
  else if decide (cls m = "TimesTwo") then (x * 2)%Z
  else x.

Abbreviation block := (@MLBlock Q primitive).
Abbreviation hyperparam := (@MLHyperparam Q).
Abbreviation state := (@world Q Z Z primitive).

Definition step_A : block :=
  mkMLBlock "A" (mkPrimitive "AddOne" [] [] 0) [("copy", 1%Q)] [("lr", 0)].

Definition step_B : block :=
  mkMLBlock "B" (mkPrimitive "TimesTwo" [] [] 0) [("copy", 0%Q)]
    [("lr", 1); ("depth", 2)].

(** An earlier step that has the name of [step_A]. *)
Definition step_A_old : block :=
  mkMLBlock "A" (mkPrimitive "Identity" [] [] 0) [] [].

Definition the_objects (r : ref) : hyperparam :=
  match r with
  | 0 => mkMLHyperparam "A" "lr" 0.1%Q
  | 1 => mkMLHyperparam "B" "lr" 0.2%Q
  | 2 => mkMLHyperparam "B" "depth" 3%Q
  | 3 => mkMLHyperparam "A" "lr" 0.9%Q
  | 10 => mkMLHyperparam "a" "b__c" 1%Q
  | 11 => mkMLHyperparam "a__b" "c" 2%Q
  | 20 => mkMLHyperparam "step1" "alpha" 0.5%Q
  | _ => mkMLHyperparam "" "" 0%Q
  end.

(** Steps A and B, run in that order. *)
Definition two_steps : state :=
  mkWorld (init [step_A; step_B] None) the_objects [].

(** Steps A and B, of which [dataflow] runs A only. *)
Definition only_A_runs : state :=
  mkWorld (init [step_A; step_B] (Some ["A"])) the_objects [].

(** Two steps whose hyperparameters get the same key in [to_dict]. *)
Definition colliding : state :=
  mkWorld
    (init [mkMLBlock "a" (mkPrimitive "AddOne" [] [] 0) [] [("b__c", 10)];
           mkMLBlock "a__b" (mkPrimitive "TimesTwo" [] [] 0) [] [("c", 11)]] None)
    the_objects [].

(** One step with the one tunable hyperparameter [alpha = 0.5]. *)
Definition one_alpha : state :=
  mkWorld
    (init [mkMLBlock "step1" (mkPrimitive "AddOne" [] [] 0) [] [("alpha", 20)]] None)
    the_objects [].

End Demo.

(** ** The invariants of the data model, together *)

Section Invariants.
Context {Value Model : Type}.

(** A step as a parser hands it over: its hyperparameter mappings are
    dictionaries, and its tunable hyperparameters name the step and the
    key they are stored under. *)
Definition step_ok (σ : ref → @MLHyperparam Value) (step : @MLBlock Value Model) : Prop :=
  wf (fixed_hyperparams step)
  ∧ wf (tunable_hyperparams step)
  ∧ Forall (λ slot, step_name (σ slot.2) = name step ∧ param_name (σ slot.2) = slot.1)
      (tunable_hyperparams step).

Definition pipeline_inv (σ : ref → @MLHyperparam Value) (p : @MLPipeline Value Model) : Prop :=
  pipeline_ok p ∧ hyperparams_ok σ p ∧ dataflow_ok p.

(** The same invariants, of the steps alone. *)
Definition steps_inv (σ : ref → @MLHyperparam Value)
    (steps : dict string (@MLBlock Value Model)) : Prop :=
  wf steps
  ∧ Forall (λ entry, name entry.2 = entry.1 ∧ step_ok σ entry.2) steps.

End Invariants.

(** The character that [to_dict] puts, twice, between the name of the step
    and the name of the hyperparameter. *)
Definition underscore : Ascii.ascii := Ascii.ascii_of_nat 95.

(** A name without that character. *)
Fixpoint no_underscore (s : string) : bool :=
  match s with
  | EmptyString => true
  | String c s' => negb (Ascii.eqb c underscore) && no_underscore s'
  end.

(** ** Building a pipeline from JSON metadata *)

Module Loading.

(** What [json.load] returns. *)
#[warnings="-register-all"]
Inductive json :=
  | JNull
  | JBool (b : bool)
  | JNumber (n : Q)
  | JString (s : string)
  | JArray (elements : list json)
  | JObject (members : dict string json).

(** The exceptions of the class methods: those that the methods raise
    themselves or by subscripting and attribute lookup, and those of the
    code they call. *)
Inductive error (E : Type) :=
  | Key_error (k : string)
  | Type_error
  | Attribute_error
  | Value_error (message : string)
  | Raised (e : E).
Arguments Key_error {E} k.
Arguments Type_error {E}.
Arguments Attribute_error {E}.
Arguments Value_error {E} message.
Arguments Raised {E} e.

Inductive result (E A : Type) :=
  | Done (a : A)
  | Failed (e : error E).
Arguments Done {E A} a.
Arguments Failed {E A} e.

Definition and_then {E A B} (r : result E A) (k : A → result E B) : result E B :=
  match r with
  | Done a => k a
  | Failed e => Failed e
  end.

Declare Scope load_scope.
Delimit Scope load_scope with load.
Notation "x <- c ;; k" := (and_then c (λ x, k))
  (at level 100, c at next level, right associativity) : load_scope.
Local Open Scope load_scope.

(** [for x in l: acc.append(f(x))] *)
Fixpoint gather {E X A} (f : X → result E A) (l : list X) (acc : list A)
    : result E (list A) :=
  match l with
  | [] => Done acc
  | x :: l' => a <- f x ;; gather f l' (acc ++ [a])
  end.

Section loading.

Context {E Parser Value Model : Type}.

(** Modelled from the spec: the parsers of [mlblocks.json_parsers] are not
    part of this file's source.  A parser is made from one metadata object
    and builds one step; making it and building the step may fail. *)
Context (MLJsonParser KerasJsonParser : json → result E Parser).
Context (build_mlblock : Parser → result E (@MLBlock Value Model)).

(** The file system: [os.path.isfile], [open] followed by [json.load], and
    [os.path.join]; the directory of the module. *)
Context (isfile : string → bool).
Context (load : string → result E json).
Context (path_join : string → string → string).
Context (current_dir : string).

(** [md[k]] *)
Definition subscript (md : json) (k : string) : result E json :=
  match md with
  | JObject members =>
      match getitem members k with
      | Some v => Done v
      | None => Failed (Key_error k)
      end
  | _ => Failed Type_error
  end.

(** [s.startswith(prefix)] *)
Definition startswith (s prefix : string) : bool := String.prefix prefix s.

(** [MLPipeline._get_parser(json_block_metadata)] *)
Definition get_parser (json_block_metadata : json) : result E Parser :=
  parser <- MLJsonParser json_block_metadata ;;
  full_module_class <- subscript json_block_metadata "class" ;;
  match full_module_class with
  | JString s =>
      if startswith s "keras" then KerasJsonParser json_block_metadata
      else Done parser
  | _ => Failed Attribute_error
  end.

(** [MLPipeline.from_json_metadata(json_metadata)] *)
Definition from_json_metadata (json_metadata : list json)
    : result E (@MLPipeline Value Model) :=
  block_steps <- gather (λ json_md,
                   parser <- get_parser json_md ;; build_mlblock parser)
                   json_metadata [] ;;
  Done (init block_steps None).

(** [MLPipeline.from_json_filepaths(json_filepath_list)] *)
Definition from_json_filepaths (json_filepath_list : list string)
    : result E (@MLPipeline Value Model) :=
  loaded_json_metadata <- gather load json_filepath_list [] ;;
  from_json_metadata loaded_json_metadata.

(** ['%s.%s' % (json_name, 'json')] under [components/primitive_jsons] *)
Definition json_path (json_name : string) : string :=
  path_join (path_join current_dir "../components/primitive_jsons")
    (json_name +:+ "." +:+ "json").

Definition no_json_message (json_name : string) : string :=
  "No JSON corresponding to the specified name (" +:+ json_name +:+ ") exists.".

(** [MLPipeline.from_dm_json(json_names)] *)
Definition from_dm_json (json_names : list string)
    : result E (@MLPipeline Value Model) :=
  json_filepaths <- gather (λ json_name,
                      let path_to_json := json_path json_name in
                      if negb (isfile path_to_json)
                      then Failed (Value_error (no_json_message json_name))
                      else Done path_to_json) json_names [] ;;
  from_json_filepaths json_filepaths.

(** A metadata object from which a step is made. *)
Definition makes (json_md : json) (step : @MLBlock Value Model) : Prop :=
  (parser <- get_parser json_md ;; build_mlblock parser) = Done step.

End loading.

End Loading.

(** ** More concrete pipelines, and concrete parsers and files *)

Module MoreDemo.

Import Loading.

(** Steps A and B, and a [dataflow] that names a step C between them. *)
Definition names_a_missing_step : Demo.state :=
  mkWorld (init [Demo.step_A; Demo.step_B] (Some ["A"; "C"; "B"]))
    Demo.the_objects [].

(** A parser keeps the metadata it was made from. *)
Inductive parser :=
  | Generic (md : json)
  | Keras (md : json).

Definition MLJsonParser (md : json) : result string parser := Done (Generic md).
Definition KerasJsonParser (md : json) : result string parser := Done (Keras md).

(** The step has the name and the class that the metadata give. *)
Definition build_mlblock (p : parser) : result string Demo.block :=
  match p with
  | Generic (JObject members) | Keras (JObject members) =>
      match getitem members "name", getitem members "class" with
      | Some (JString n), Some (JString c) =>
          Done (mkMLBlock n (Demo.mkPrimitive c [] [] 0) [] [])
      | _, _ => Failed (Raised "malformed metadata")
      end
  | _ => Failed (Raised "malformed metadata")
  end.

Definition add_one_json : json :=
  JObject [("name", JString "A"); ("class", JString "AddOne")].

Definition dense_json : json :=
  JObject [("name", JString "dense"); ("class", JString "keras.layers.Dense")].

(** [s.endswith('/')] *)
Fixpoint ends_with_slash (s : string) : bool :=
  match s with
  | EmptyString => false
  | String c EmptyString => Ascii.eqb c (Ascii.ascii_of_nat 47)
  | String _ s' => ends_with_slash s'
  end.

(** [os.path.join] of two paths, as [posixpath] has it. *)
Definition path_join (a b : string) : string :=
  if String.prefix "/" b then b
  else if bool_decide (a = "") || ends_with_slash a then a +:+ b
  else a +:+ "/" +:+ b.
Definition current_dir : string := "/pkg".

Definition add_one_path : string :=
  "/pkg/../components/primitive_jsons/add_one.json".
Definition dense_path : string :=
  "/pkg/../components/primitive_jsons/dense.json".
Definition broken_path : string :=
  "/pkg/../components/primitive_jsons/broken.json".

Definition isfile (path : string) : bool :=
  bool_decide (path ∈ [add_one_path; dense_path; broken_path]).

(** The third file is there and does not hold JSON. *)
Definition load (path : string) : result string json :=
  if decide (path = add_one_path) then Done add_one_json
  else if decide (path = dense_path) then Done dense_json
  else Failed (Raised "cannot load").

End MoreDemo.

(** * Facts about dictionaries *)

Section dict_facts.
Context {K V : Type} `{EqDecision K}.
Implicit Types (d : dict K V) (k : K) (v : V) (l : list (K * V)).

Lemma getitem_setitem_eq d k v : getitem (setitem d k v) k = Some v.
Proof.
  induction d as [|[k' v'] d IH]; simpl.
  - by rewrite decide_True.
  - destruct (decide (k = k')) as [->|Hne]; simpl.
    + by rewrite decide_True.
    + by rewrite decide_False.
Qed.

Lemma getitem_setitem_ne d k k' v :
  k ≠ k' → getitem (setitem d k v) k' = getitem d k'.
Proof.
  intros Hne. induction d as [|[k0 v0] d IH]; simpl.
  - by rewrite decide_False.
  - destruct (decide (k = k0)) as [->|Hk]; simpl.
    + by rewrite !(decide_False (P := k' = k0)).
    + by rewrite IH.
Qed.

Lemma getitem_setitem d k k' v :
  getitem (setitem d k v) k' = if decide (k = k') then Some v else getitem d k'.
Proof.
  case_decide as Hk; [subst; apply getitem_setitem_eq|by apply getitem_setitem_ne].
Qed.

Lemma setitem_id d k v : getitem d k = Some v → setitem d k v = d.
Proof.
  induction d as [|[k' v'] d IH]; simpl; [done|].
  destruct (decide (k = k')) as [->|Hne]; [congruence|].
  intros Hd. by rewrite IH.
Qed.

Lemma getitem_Some_elem d k v : getitem d k = Some v → (k, v) ∈ d.
Proof.
  induction d as [|[k' v'] d IH]; simpl; [done|].
  destruct (decide (k = k')) as [->|Hne].
  - intros [= ->]. left.
  - intros Hd. right. auto.
Qed.

Lemma elem_setitem d k v (kv : K * V) :
  kv ∈ setitem d k v → kv ∈ d ∨ kv = (k, v).
Proof.
  induction d as [|[k' v'] d IH]; simpl.
  - intros Hin. apply list_elem_of_singleton in Hin. by right.
  - destruct (decide (k = k')) as [->|Hne]; intros Hin;
      apply elem_of_cons in Hin as [->|Hin].
    + by right.
    + left. by right.
    + left. left.
    + apply IH in Hin as [Hin|Hin]; [left; by right|by right].
Qed.

Lemma Forall_setitem (P : K * V → Prop) d k v :
  Forall P d → P (k, v) → Forall P (setitem d k v).
Proof.
  intros Hd Hkv. induction d as [|[k' v'] d IH]; simpl.
  - by constructor.
  - apply Forall_cons in Hd as [Hhd Htl].
    destruct (decide (k = k')) as [->|Hne]; constructor; auto.
Qed.

Lemma getitem_None d k : getitem d k = None ↔ k ∉ keys d.
Proof.
  unfold keys. induction d as [|[k' v'] d IH]; simpl.
  - split; [intros _; apply not_elem_of_nil|done].
  - rewrite not_elem_of_cons. destruct (decide (k = k')) as [->|Hne].
    + split; [done|]. by intros [? _].
    + rewrite IH. tauto.
Qed.

Lemma getitem_is_Some d k : is_Some (getitem d k) ↔ k ∈ keys d.
Proof.
  rewrite <-not_eq_None_Some, getitem_None.
  destruct (decide (k ∈ keys d)); tauto.
Qed.

Lemma elem_getitem d k v : wf d → (k, v) ∈ d → getitem d k = Some v.
Proof.
  unfold wf, keys. induction d as [|[k' v'] d IH]; simpl.
  - intros _ Hin. by apply elem_of_nil in Hin.
  - rewrite NoDup_cons. intros [Hk Hd] Hin.
    apply elem_of_cons in Hin as [[= -> ->]|Hin].
    + by rewrite decide_True.
    + rewrite decide_False; [by apply IH|].
      intros ->. apply Hk. apply list_elem_of_fmap. by exists (k', v).
Qed.

Lemma contains_true d k : contains d k = true ↔ k ∈ keys d.
Proof.
  unfold contains. rewrite <-getitem_is_Some.
  destruct (getitem d k) as [v|]; split; intros Hc; try done.
Qed.

Lemma keys_setitem d k v :
  keys (setitem d k v) = if decide (k ∈ keys d) then keys d else keys d ++ [k].
Proof.
  unfold keys. induction d as [|[k' v'] d IH].
  - case_decide as Hin; [by apply elem_of_nil in Hin|done].
  - cbn [setitem]. destruct (decide (k = k')) as [->|Hne].
    + rewrite decide_True; [done|left].
    + rewrite fmap_cons, IH. cbn [fmap list_fmap fst].
      destruct (decide (k ∈ d.*1)) as [Hin|Hin].
      * rewrite decide_True; [done|by right].
      * rewrite decide_False; [done|]. rewrite not_elem_of_cons. tauto.
Qed.

Lemma wf_setitem d k v : wf d → wf (setitem d k v).
Proof.
  unfold wf. rewrite keys_setitem. case_decide as Hin; [done|].
  intros Hd. apply NoDup_app. split; [done|]. split; [|apply NoDup_singleton].
  intros x Hx Hx'. apply list_elem_of_singleton in Hx'. by subst.
Qed.

Lemma elem_keys_setitem d k v k' :
  k' ∈ keys (setitem d k v) ↔ k' = k ∨ k' ∈ keys d.
Proof.
  rewrite keys_setitem. case_decide as Hin.
  - split; [by right|]. by intros [->|].
  - rewrite elem_of_app, list_elem_of_singleton. tauto.
Qed.

Lemma wf_of_items l : wf (of_items l).
Proof.
  unfold of_items.
  assert (Hgen : ∀ d, wf d → wf (foldl (λ d kv, setitem d kv.1 kv.2) d l)).
  { induction l as [|[k v] l IH]; simpl; [done|].
    intros d Hd. apply IH. by apply wf_setitem. }
  apply Hgen. constructor.
Qed.

Lemma getitem_foldl_setitem l d k :
  getitem (foldl (λ d kv, setitem d kv.1 kv.2) d l) k =
  match last_binding l k with Some v => Some v | None => getitem d k end.
Proof.
  unfold last_binding. revert d. induction l as [|[k0 v0] l IH]; intros d; simpl.
  - done.
  - rewrite IH, reverse_cons. clear IH.
    generalize (reverse l). intros r.
    induction r as [|[k1 v1] r IHr]; simpl.
    + rewrite getitem_setitem. by destruct (decide (k = k0)), (decide (k0 = k)).
    + by destruct (decide (k = k1)).
Qed.

Lemma getitem_of_items l k : getitem (of_items l) k = last_binding l k.
Proof.
  unfold of_items. rewrite getitem_foldl_setitem. simpl.
  by destruct (last_binding l k).
Qed.

Lemma elem_keys_foldl_setitem l d k :
  k ∈ keys (foldl (λ d kv, setitem d kv.1 kv.2) d l) ↔ k ∈ keys d ∨ k ∈ l.*1.
Proof.
  revert d. induction l as [|[k0 v0] l IH]; intros d; simpl.
  - rewrite elem_of_nil. tauto.
  - rewrite IH, elem_keys_setitem, elem_of_cons. tauto.
Qed.

Lemma elem_keys_of_items l k : k ∈ keys (of_items l) ↔ k ∈ l.*1.
Proof.
  unfold of_items. rewrite elem_keys_foldl_setitem. unfold keys. simpl.
  rewrite elem_of_nil. tauto.
Qed.

Lemma elem_of_items l (kv : K * V) : kv ∈ of_items l → kv ∈ l.
Proof.
  unfold of_items.
  assert (Hgen : ∀ d, kv ∈ foldl (λ d kv, setitem d kv.1 kv.2) d l → kv ∈ d ∨ kv ∈ l).
  { induction l as [|[k v] l IH]; intros d; simpl; [by left|].
    intros Hd. apply IH in Hd as [Hd|Hd]; [|by right; right].
    apply elem_setitem in Hd as [Hd|Hd]; [by left|]. right. rewrite Hd. left. }
  intros Hin. apply Hgen in Hin as [Hin|Hin]; [by apply elem_of_nil in Hin|done].
Qed.

Lemma getitem_app d1 d2 k :
  getitem (d1 ++ d2) k =
  match getitem d1 k with Some v => Some v | None => getitem d2 k end.
Proof.
  induction d1 as [|[k' v'] d1 IH]; simpl; [done|].
  by destruct (decide (k = k')).
Qed.

(** The binding that comes last in a list of pairs is the last binding. *)
Lemma last_binding_last (pre post : list (K * V)) k v :
  k ∉ post.*1 → last_binding (pre ++ (k, v) :: post) k = Some v.
Proof.
  intros Hk. unfold last_binding.
  rewrite reverse_app, reverse_cons, <-(assoc_L (++)), getitem_app.
  assert (Hnone : getitem (reverse post) k = None).
  { apply getitem_None. unfold keys. rewrite fmap_reverse.
    intros Hin. apply Hk. by apply elem_of_reverse. }
  rewrite Hnone. simpl. by rewrite decide_True.
Qed.

(** When the keys of [l] are pairwise distinct nothing is overwritten. *)
Lemma of_items_NoDup l : NoDup l.*1 → of_items l = l.
Proof.
  unfold of_items.
  assert (Hgen : ∀ d, NoDup (d ++ l).*1 →
            foldl (λ d kv, setitem d kv.1 kv.2) d l = d ++ l).
  { induction l as [|[k v] l IH]; intros d Hd; simpl.
    - by rewrite app_nil_r.
    - assert (Hset : setitem d k v = d ++ [(k, v)]).
      { rewrite fmap_app in Hd. apply NoDup_app in Hd as (_ & Hd & _).
        assert (Hk : k ∉ d.*1) by (intros Hk; apply (Hd k Hk); left).
        clear -Hk. induction d as [|[k' v'] d IHd]; simpl; [done|].
        simpl in Hk. rewrite not_elem_of_cons in Hk. destruct Hk as [? ?].
        rewrite decide_False by done. by rewrite IHd. }
      rewrite Hset, IH; rewrite <-?(assoc_L (++)); done. }
  intros Hl. by rewrite (Hgen []).
Qed.

End dict_facts.

Section map_values_facts.
Context {K V W : Type} `{EqDecision K}.
Implicit Types (d : dict K V) (k : K).

Lemma getitem_map_values (f : V → W) d k :
  getitem (map_values f d) k = f <$> getitem d k.
Proof.
  unfold map_values. induction d as [|[k' v'] d IH]; simpl; [done|].
  by destruct (decide (k = k')).
Qed.

Lemma keys_map_values (f : V → W) d : keys (map_values f d) = keys d.
Proof.
  unfold keys, map_values. rewrite <-list_fmap_compose.
  by apply list_fmap_ext; intros ? [??].
Qed.
End map_values_facts.

(** * Facts about loops *)

Section loop_facts.
Context {S : Type}.

Lemma bind_Return {A B} (c : M S A) (k : A → M S B) s s' a :
  c s = (s', Return a) → bind c k s = k a s'.
Proof. unfold bind. by intros ->. Qed.

Lemma bind_Raise {A B} (c : M S A) (k : A → M S B) s s' e :
  c s = (s', Raise e) → bind c k s = (s', Raise e).
Proof. unfold bind. by intros ->. Qed.

Lemma for_each_app {X} (l1 l2 : list X) (body : X → M S unit) (s : S) :
  for_each (l1 ++ l2) body s =
  match for_each l1 body s with
  | (s', Return _) => for_each l2 body s'
  | (s', Raise e) => (s', Raise e)
  end.
Proof.
  revert s. induction l1 as [|x l1 IH]; intros s; simpl; [done|].
  unfold bind. destruct (body x s) as [s' [[]|e]]; [apply IH|done].
Qed.

(** A list either satisfies a decidable property throughout, or has a first
    element that does not. *)
Lemma first_failure {A} (P : A → Prop) `{∀ a, Decision (P a)} (l : list A) :
  Forall P l ∨ ∃ pre a post, l = pre ++ a :: post ∧ Forall P pre ∧ ¬ P a.
Proof.
  induction l as [|a l IH]; [by left|].
  destruct (decide (P a)) as [Ha|Ha].
  - destruct IH as [IH|(pre & b & post & -> & Hpre & Hb)].
    + left. by constructor.
    + right. exists (a :: pre), b, post. split; [done|]. split; [by constructor|done].
  - right. exists [], a, l. by split.
Qed.

Lemma subscript_Some {K V} `{EqDecision K, PyKey K} (d : dict K V) k v (s : S) :
  getitem d k = Some v → subscript d k s = (s, Return v).
Proof. unfold subscript. by intros ->. Qed.

Lemma subscript_None {K V} `{EqDecision K, PyKey K} (d : dict K V) k (s : S) :
  getitem d k = None → subscript d k s = (s, @Raise V (KeyError (py_key k))).
Proof. unfold subscript. by intros ->. Qed.
End loop_facts.

(** * The pipeline *)

Section pipeline_facts.
Context {Value Data Label Model Class : Type}.
Context (class_of : Model → Class).
Context (construct : Class → dict string ref → Model).
Context (block_fit : Model → Data → Label → dict string Value → Model).
Context (block_produce : Model → Data → Data).
Context (block_update_model : Model → dict string Value → dict string ref → Model).

Abbreviation World := (@world Value Data Label Model).
Abbreviation Pipeline := (@MLPipeline Value Model).
Abbreviation Block := (@MLBlock Value Model).
Abbreviation Call := (@call Value Data Label).
Implicit Types (w : World) (p : Pipeline) (step : Block) (x : Data) (y : Label).

Lemma world_eta w : mkWorld (self w) (objects w) (calls w) = w.
Proof. by destruct w. Qed.

Lemma the_step_Some w n step :
  getitem (steps_dict (self w)) n = Some step → the_step n w = (w, Return step).
Proof. intros Hn. unfold the_step, bind, gets. by apply subscript_Some. Qed.

Lemma the_step_None w n :
  getitem (steps_dict (self w)) n = None →
  the_step n w = (w, Raise (KeyError (KStr n))).
Proof. intros Hn. unfold the_step, bind, gets. by apply subscript_None. Qed.

(** ** predict *)

Lemma predict_loop (names : list string) x w :
  (∀ n, n ∈ names → n ∈ keys (steps_dict (self w))) →
  for_fold names x (λ transformed_data step_name,
    step <- the_step step_name ;;
    modify (λ w, log w (CallProduce step_name transformed_data)) ;;
    ret (block_produce (model step) transformed_data)) w =
  (mkWorld (self w) (objects w)
     (calls w ++ produce_calls block_produce (self w) names x),
   Return (foldl (λ data n, produce_of block_produce (self w) n data) x names)).
Proof.
  revert x w. induction names as [|n names IH]; intros x w Hnames; simpl.
  - unfold ret. by rewrite app_nil_r, world_eta.
  - assert (Hn : n ∈ keys (steps_dict (self w))) by (apply Hnames; left).
    apply getitem_is_Some in Hn as [step Hstep].
    rewrite (bind_Return _ _ w (log w (CallProduce n x))
               (block_produce (model step) x)).
    + rewrite IH; simpl.
      * unfold produce_of at 2 4. rewrite Hstep. by rewrite <-(assoc_L (++)).
      * intros n' Hn'. apply Hnames. by right.
    + by rewrite (bind_Return _ _ w w step) by (by apply the_step_Some).
Qed.

Lemma call_step_produce_calls p (names : list string) x :
  call_step <$> (produce_calls block_produce p names x : list Call) = names.
Proof.
  revert x. induction names as [|n names IH]; intros x; simpl; [done|].
  by rewrite IH.
Qed.

Lemma is_produce_produce_calls p (names : list string) x :
  Forall (λ c : Call, is_produce c = true) (produce_calls block_produce p names x).
Proof.
  revert x. induction names as [|n names IH]; intros x; simpl; constructor; auto.
Qed.

(** C1: [predict] visits the steps in the order of [dataflow], calls
    [produce] and nothing else on each, feeds every step the output of the
    one before, and returns the last output: the left fold of the steps'
    [produce] over [dataflow], started at [x].  The pipeline is as the data
    model has it: every name of [dataflow] is a key of [steps_dict]. *)
Theorem predict_is_fold_of_produce w x :
  dataflow_ok (self w) →
  let made := produce_calls block_produce (self w) (dataflow (self w)) x in
  predict block_produce x w =
    (mkWorld (self w) (objects w) (calls w ++ made),
     Return (foldl (λ data n, produce_of block_produce (self w) n data) x (dataflow (self w))))
  ∧ call_step <$> made = dataflow (self w)
  ∧ Forall (λ c, is_produce c = true) made.
Proof.
  intros Hdf made. split; [|split].
  - unfold predict, bind at 1, gets. apply predict_loop.
    by apply Forall_forall.
  - apply call_step_produce_calls.
  - apply is_produce_produce_calls.
Qed.

(** ** fit *)

Implicit Types (fp : dict (string * string) Value).
Implicit Types (pd : dict string (dict string Value)).

Lemma fit_param_loop_ok fp (l : list ((string * string) * Value)) pd w :
  (∀ kv, kv ∈ l → kv.1 ∈ keys fp ∧ kv.1.1 ∈ keys pd) →
  ∃ pd',
    for_fold l pd (λ param_dict '(key, _),
      v <- subscript fp key ;;
      kwargs <- subscript param_dict key.1 ;;
      ret (setitem param_dict key.1 (setitem kwargs key.2 v))) w = (w, Return pd')
    ∧ ∀ n, getitem pd' n = (λ kw, foldl (kwargs_round fp n) kw l) <$> getitem pd n.
Proof.
  revert pd. induction l as [|[key u] l IH]; intros pd Hl; simpl.
  - exists pd. split; [done|]. intros n. by destruct (getitem pd n).
  - destruct (Hl (key, u)) as [Hk Hn]; [left|]. simpl in Hk, Hn.
    apply getitem_is_Some in Hk as [v Hv].
    apply getitem_is_Some in Hn as [kw Hkw].
    destruct (IH (setitem pd key.1 (setitem kw key.2 v))) as (pd' & Hrun & Hget).
    { intros kv Hkv. destruct (Hl kv) as [? ?]; [by right|]. split; [done|].
      apply elem_keys_setitem. by right. }
    exists pd'. split.
    + erewrite bind_Return; [exact Hrun|].
      erewrite bind_Return; [|by apply subscript_Some].
      erewrite bind_Return; [|by apply subscript_Some]. done.
    + intros n. rewrite Hget, getitem_setitem.
      assert (Hr : ∀ kw0, kwargs_round fp n kw0 (key, u) =
                if decide (key.1 = n) then setitem kw0 key.2 v else kw0).
      { intros kw0. unfold kwargs_round. simpl. by rewrite Hv. }
      destruct (decide (key.1 = n)) as [<-|Hne].
      * rewrite Hkw. simpl. by rewrite Hr.
      * destruct (getitem pd n); simpl; [|done]. by rewrite Hr.
Qed.

Lemma fit_param_loop_raises fp (l : list ((string * string) * Value)) pd w :
  (∀ kv, kv ∈ l → kv.1 ∈ keys fp) →
  (∃ kv, kv ∈ l ∧ kv.1.1 ∉ keys pd) →
  ∃ n q, (n, q) ∈ l.*1 ∧ (n ∉ keys pd) ∧
    (for_fold l pd (λ param_dict '(key, _),
       v <- subscript fp key ;;
       kwargs <- subscript param_dict key.1 ;;
       ret (setitem param_dict key.1 (setitem kwargs key.2 v))) w
     = (w, Raise (KeyError (KStr n)))).
Proof.
  revert pd. induction l as [|[[n0 q0] u] l IH]; intros pd Hl (kv & Hkv & Hbad).
  { by apply elem_of_nil in Hkv. }
  assert (Hk : (n0, q0) ∈ keys fp) by (apply (Hl ((n0, q0), u)); left).
  apply getitem_is_Some in Hk as [v Hv]. simpl.
  destruct (getitem pd n0) as [kw|] eqn:Hkw.
  - destruct (IH (setitem pd n0 (setitem kw q0 v))) as (n & q & Hin & Hn & Hrun).
    { intros kv' Hkv'. apply Hl. by right. }
    { exists kv. apply elem_of_cons in Hkv as [->|Hkv].
      - exfalso. apply Hbad. simpl. apply getitem_is_Some. by exists kw.
      - split; [done|]. rewrite elem_keys_setitem. intros [Heq|Hin']; [|done].
        apply Hbad. rewrite Heq. apply getitem_is_Some. by exists kw. }
    exists n, q. split; [by right|]. split.
    + intros Hn'. apply Hn. apply elem_keys_setitem. by right.
    + erewrite bind_Return; [exact Hrun|].
      erewrite bind_Return; [|by apply subscript_Some].
      erewrite bind_Return; [|by apply subscript_Some]. done.
  - exists n0, q0. split; [left|]. split; [by apply getitem_None|].
    erewrite bind_Raise; [done|].
    erewrite bind_Return; [|by apply subscript_Some].
    erewrite bind_Raise; [done|]. by apply subscript_None.
Qed.

Lemma of_items_empty_keys (df : list string) n :
  n ∈ keys (of_items ((λ step_name, (step_name, @nil (string * Value))) <$> df)) ↔ n ∈ df.
Proof.
  rewrite elem_keys_of_items.
  assert (Hid : ((λ step_name : string, (step_name, @nil (string * Value))) <$> df).*1 = df).
  { induction df as [|n' df IH]; [done|]. rewrite !fmap_cons. simpl.
    f_equal. exact IH. }
  by rewrite Hid.
Qed.

Lemma getitem_of_items_empty (df : list string) n :
  n ∈ df →
  getitem (of_items ((λ step_name, (step_name, @nil (string * Value))) <$> df)) n = Some [].
Proof.
  intros Hn. apply of_items_empty_keys, getitem_is_Some in Hn as [kw Hkw].
  rewrite Hkw. f_equal. apply getitem_Some_elem in Hkw.
  assert (Hin : ∃ kw', (n, kw') ∈ (λ step_name : string, (step_name, @nil (string * Value))) <$> df
                       ∧ kw = kw').
  { revert Hkw. unfold of_items.
    generalize ((λ step_name : string, (step_name, @nil (string * Value))) <$> df).
    intros l. assert (Hgen : ∀ d : dict string (dict string Value),
      (n, kw) ∈ foldl (λ d kv, setitem d kv.1 kv.2) d l → (n, kw) ∈ d ∨ (n, kw) ∈ l).
    { induction l as [|[k v] l IH]; intros d; simpl; [by left|].
      intros Hd. apply IH in Hd as [Hd|Hd]; [|by right; right].
      apply elem_setitem in Hd as [Hd|Hd]; [by left|]. right. rewrite Hd. left. }
    intros Hd. apply Hgen in Hd as [Hd|Hd]; [by apply elem_of_nil in Hd|]. eauto. }
  destruct Hin as (kw' & Hin & ->).
  apply list_elem_of_fmap in Hin as (n' & Heq & _). by inversion Heq.
Qed.

Lemma getitem_kwargs_rounds fp n q (l : list ((string * string) * Value))
    (kw : dict string Value) :
  (∀ kv, kv ∈ l → kv.1 ∈ keys fp) →
  getitem (foldl (kwargs_round fp n) kw l) q =
  if decide ((n, q) ∈ l.*1) then getitem fp (n, q) else getitem kw q.
Proof.
  revert kw. induction l as [|[[n' q'] u] l IH]; intros kw Hl.
  { cbn [foldl]. case_decide as Hin; [by apply elem_of_nil in Hin|done]. }
  assert (Hk : (n', q') ∈ keys fp) by (apply (Hl ((n', q'), u)); left).
  apply getitem_is_Some in Hk as [v Hv].
  cbn [foldl]. rewrite IH by (intros kv Hkv; apply Hl; by right).
  rewrite fmap_cons. cbn [fst]. unfold kwargs_round. cbn [fst snd]. rewrite Hv.
  destruct (decide ((n, q) ∈ l.*1)) as [Hin|Hin].
  - rewrite decide_True; [done|by right].
  - destruct (decide ((n, q) = (n', q'))) as [[= -> ->]|Hne].
    + rewrite (decide_True (P := n' = n')) by done.
      rewrite decide_True by left. by rewrite getitem_setitem_eq.
    + destruct (decide ((n, q) ∈ (n', q') :: l.*1)) as [Hc|_].
      { apply elem_of_cons in Hc as [?|?]; done. }
      destruct (decide (n' = n)) as [->|Hn]; [|done].
      apply getitem_setitem_ne. congruence.
Qed.

(** The keyword arguments of the steps are a partition of [fit_params]. *)
Lemma getitem_step_kwargs fp n q :
  getitem (step_kwargs fp n) q = getitem fp (n, q).
Proof.
  unfold step_kwargs, items. rewrite getitem_kwargs_rounds.
  - case_decide as Hin; [done|]. symmetry. by apply getitem_None.
  - intros kv Hkv. apply list_elem_of_fmap. by exists kv.
Qed.

Lemma step_kwargs_empty fp n :
  (∀ q, (n, q) ∉ keys fp) → step_kwargs fp n = [].
Proof.
  intros Hn. unfold step_kwargs, items.
  assert (Hgen : ∀ (l : list ((string * string) * Value)) kw,
            (∀ kv, kv ∈ l → kv.1.1 ≠ n) → foldl (kwargs_round fp n) kw l = kw).
  { induction l as [|kv l IH]; intros kw Hl; simpl; [done|].
    rewrite IH by (intros kv' Hkv'; apply Hl; by right).
    unfold kwargs_round. rewrite decide_False; [done|]. apply Hl. left. }
  apply Hgen. intros [[n' q'] u] Hkv Heq. simpl in Heq. subst n'.
  apply (Hn q').
  apply list_elem_of_fmap. by exists ((n, q'), u).
Qed.

Lemma fit_param_dict_ok fp w :
  (∀ k, k ∈ keys fp → k.1 ∈ dataflow (self w)) →
  ∃ pd, fit_param_dict fp w = (w, Return pd)
    ∧ ∀ n, n ∈ dataflow (self w) → getitem pd n = Some (step_kwargs fp n).
Proof.
  intros Hfp. unfold fit_param_dict.
  destruct (fit_param_loop_ok fp (items fp)
    (of_items ((λ step_name, (step_name, [])) <$> dataflow (self w))) w)
    as (pd & Hrun & Hget).
  { intros kv Hkv. assert (Hk : kv.1 ∈ keys fp).
    { apply list_elem_of_fmap. by exists kv. }
    split; [done|]. apply of_items_empty_keys. by apply Hfp. }
  exists pd. split.
  - by erewrite bind_Return.
  - intros n Hn. by rewrite Hget, getitem_of_items_empty.
Qed.

Lemma fit_param_dict_raises fp w :
  (∃ k, k ∈ keys fp ∧ k.1 ∉ dataflow (self w)) →
  ∃ n q, (n, q) ∈ keys fp ∧ (n ∉ dataflow (self w)) ∧
    fit_param_dict fp w = (w, Raise (KeyError (KStr n))).
Proof.
  intros (k & Hk & Hbad). unfold fit_param_dict.
  destruct (fit_param_loop_raises fp (items fp)
    (of_items ((λ step_name, (step_name, [])) <$> dataflow (self w))) w)
    as (n & q & Hin & Hn & Hrun).
  { intros kv Hkv. apply list_elem_of_fmap. by exists kv. }
  { apply list_elem_of_fmap in Hk as (kv & -> & Hkv). exists kv.
    split; [done|]. by rewrite of_items_empty_keys. }
  exists n, q. split; [done|]. split.
  - by rewrite of_items_empty_keys in Hn.
  - by erewrite bind_Return.
Qed.

Lemma fit_loop y (kwargs : string → dict string Value) pd (names : list string) x w :
  (∀ n, n ∈ names → n ∈ keys (steps_dict (self w))) →
  (∀ n, n ∈ names → getitem pd n = Some (kwargs n)) →
  let rounds := fit_rounds block_fit block_produce y kwargs names
                  (steps_dict (self w)) x in
  ∃ x',
    for_fold names x (λ transformed_data step_name,
      step <- the_step step_name ;;
      kwargs <- subscript pd step_name ;;
      modify (λ w, log w (CallFit step_name transformed_data y kwargs)) ;;
      let step := set_model step (block_fit (model step) transformed_data y kwargs) in
      assign_step step_name step ;;
      modify (λ w, log w (CallProduce step_name transformed_data)) ;;
      ret (block_produce (model step) transformed_data)) w =
    (mkWorld (mkMLPipeline rounds.1 (dataflow (self w))) (objects w)
       (calls w ++ rounds.2),
     Return x').
Proof.
  revert x w. induction names as [|n names IH]; intros x w Hsteps Hpd; simpl.
  - exists x. unfold ret. rewrite app_nil_r. by destruct w as [[??]??].
  - assert (Hn : n ∈ keys (steps_dict (self w))) by (apply Hsteps; left).
    apply getitem_is_Some in Hn as [step Hstep]. rewrite Hstep. simpl.
    set (step' := set_model step (block_fit (model step) x y (kwargs n))).
    set (w1 := mkWorld (mkMLPipeline (setitem (steps_dict (self w)) n step')
                          (dataflow (self w))) (objects w)
                 ((calls w ++ [CallFit n x y (kwargs n)]) ++ [CallProduce n x])).
    destruct (IH (block_produce (model step') x) w1) as [x' Hrun].
    { intros n' Hn'. simpl. apply elem_keys_setitem. right. apply Hsteps. by right. }
    { intros n' Hn'. apply Hpd. by right. }
    exists x'.
    rewrite (bind_Return _ _ w w1 (block_produce (model step') x)).
    + etrans; [exact Hrun|]. simpl. by rewrite <-!(assoc_L (++)).
    + erewrite bind_Return; [|by apply the_step_Some].
      erewrite bind_Return; [|apply subscript_Some, Hpd; left].
      done.
Qed.

Lemma keys_fit_rounds y (kwargs : string → dict string Value)
    (names : list string) (steps : dict string Block) x n :
  n ∈ keys steps →
  n ∈ keys (fit_rounds block_fit block_produce y kwargs names steps x).1.
Proof.
  revert steps x. induction names as [|n' names IH]; intros steps x Hn; simpl.
  - done.
  - destruct (getitem steps n') as [step|]; [|done]. simpl.
    apply IH, elem_keys_setitem. by right.
Qed.

(** C2: [fit] hands every step the entries of [fit_params] that carry its
    name (none by default), then runs the steps in the order of [dataflow]:
    each is fitted on the current data, the unchanged labels and its own
    keyword arguments, then produces on the same data, and its output is
    the data of the next step.  A [predict] that follows is the left fold of
    [produce] over the fitted steps; with step A producing [x + 1] and step
    B producing [x * 2], [predict 3] after [fit] is [8].  The pipeline is as
    the data model has it (every name of [dataflow] is a key of
    [steps_dict]), and every key of [fit_params] names a step of
    [dataflow]. *)
Theorem fit_runs_the_steps_in_order w x y fp :
  dataflow_ok (self w) →
  Forall (λ k, k.1 ∈ dataflow (self w)) (keys fp) →
  let rounds := fit_rounds block_fit block_produce y (step_kwargs fp)
                  (dataflow (self w)) (steps_dict (self w)) x in
  let w' := mkWorld (mkMLPipeline rounds.1 (dataflow (self w))) (objects w)
              (calls w ++ rounds.2) in
  (∀ n q, getitem (step_kwargs fp n) q = getitem fp (n, q))
  ∧ (∀ n, (∀ q, (n, q) ∉ keys fp) → step_kwargs fp n = [])
  ∧ fit block_fit block_produce x y fp w = (w', Return tt)
  ∧ ∀ x0,
      predict block_produce x0 w' =
      (mkWorld (self w') (objects w')
         (calls w' ++ produce_calls block_produce (self w') (dataflow (self w)) x0),
       Return (foldl (λ data n, produce_of block_produce (self w') n data) x0
                 (dataflow (self w)))).
Proof.
  intros Hsteps Hfp rounds w'.
  unfold dataflow_ok in Hsteps.
  rewrite Forall_forall in Hsteps. rewrite Forall_forall in Hfp.
  split; [intros n q; apply getitem_step_kwargs|].
  split; [apply step_kwargs_empty|].
  destruct (fit_param_dict_ok fp w Hfp) as (pd & Hpd & Hget).
  destruct (fit_loop y (step_kwargs fp) pd (dataflow (self w)) x w Hsteps Hget)
    as [x' Hrun].
  assert (Hfit : fit block_fit block_produce x y fp w = (w', Return tt)).
  { unfold fit. erewrite bind_Return; [|exact Hpd].
    unfold bind at 1, gets. erewrite bind_Return; [|exact Hrun]. done. }
  split; [done|]. intros x0. unfold predict, bind at 1, gets.
  apply (predict_loop (dataflow (self w)) x0 w').
  intros n Hn. apply Hsteps in Hn. subst w' rounds. simpl.
  by apply keys_fit_rounds.
Qed.

(** C10: [fit] raises a [KeyError] whenever [fit_params] has a key whose
    step name is not in [dataflow], whether or not [steps_dict] has a step
    of that name: the keyword arguments are prepared for the names of
    [dataflow] only.  The error comes before any step is fitted or asked to
    produce: the pipeline, the hyperparameters and the calls made are as
    before. *)
Theorem fit_raises_on_step_outside_dataflow w x y fp :
  Exists (λ k, k.1 ∉ dataflow (self w)) (keys fp) →
  ∃ n q,
    (n, q) ∈ keys fp ∧ (n ∉ dataflow (self w)) ∧
    fit block_fit block_produce x y fp w = (w, Raise (KeyError (KStr n))).
Proof.
  intros Hbad. apply Exists_exists in Hbad.
  destruct (fit_param_dict_raises fp w Hbad) as (n & q & Hin & Hn & Hrun).
  exists n, q. split; [done|]. split; [done|].
  unfold fit. by erewrite bind_Raise.
Qed.

(** ** update_fixed_hyperparams *)

Lemma set_steps_id w : set_steps w (steps_dict (self w)) = w.
Proof. by destruct w as [[??]??]. Qed.

Lemma update_fixed_round fh w n q :
  (n, q) ∈ keys fh →
  n ∈ keys (steps_dict (self w)) →
  (step <- the_step n ;;
   v <- subscript fh (n, q) ;;
   let step := set_fixed step (setitem (fixed_hyperparams step) q v) in
   let step := set_model step
     (block_update_model (model step) (fixed_hyperparams step)
        (tunable_hyperparams step)) in
   assign_step n step) w =
  (set_steps w (fixed_round block_update_model fh (steps_dict (self w)) (n, q)),
   Return tt).
Proof.
  intros [v Hv]%getitem_is_Some [step Hstep]%getitem_is_Some.
  erewrite bind_Return; [|by apply the_step_Some].
  erewrite bind_Return; [|by apply subscript_Some].
  unfold fixed_round. simpl. by rewrite Hstep, Hv.
Qed.

Lemma keys_fixed_round fh (steps : dict string Block) k n :
  n ∈ keys (fixed_round block_update_model fh steps k) ↔ n ∈ keys steps.
Proof.
  unfold fixed_round. destruct (getitem steps k.1) as [step|] eqn:Hstep; [|done].
  destruct (getitem fh k); [|done]. rewrite elem_keys_setitem.
  split; [|by right]. intros [->|]; [|done]. apply getitem_is_Some. by exists step.
Qed.

Lemma keys_fixed_rounds fh (steps : dict string Block) (l : list (string * string)) n :
  n ∈ keys (foldl (fixed_round block_update_model fh) steps l) ↔ n ∈ keys steps.
Proof.
  revert steps. induction l as [|k l IH]; intros steps; simpl; [done|].
  by rewrite IH, keys_fixed_round.
Qed.

Lemma update_fixed_loop_ok fh (l : list (string * string)) w :
  (∀ k, k ∈ l → k ∈ keys fh ∧ k.1 ∈ keys (steps_dict (self w))) →
  for_each l (λ '(step_name, hyperparam_name),
    step <- the_step step_name ;;
    v <- subscript fh (step_name, hyperparam_name) ;;
    let step := set_fixed step (setitem (fixed_hyperparams step) hyperparam_name v) in
    let step := set_model step
      (block_update_model (model step) (fixed_hyperparams step)
         (tunable_hyperparams step)) in
    assign_step step_name step) w =
  (set_steps w (foldl (fixed_round block_update_model fh) (steps_dict (self w)) l),
   Return tt).
Proof.
  revert w. induction l as [|[n q] l IH]; intros w Hl.
  - simpl. unfold ret. by rewrite set_steps_id.
  - destruct (Hl (n, q)) as [Hk Hn]; [left|]. cbn [for_each foldl].
    erewrite bind_Return; [|by apply update_fixed_round].
    etrans; [apply IH|done].
    intros k Hk'. destruct (Hl k) as [? ?]; [by right|]. split; [done|].
    simpl. by apply keys_fixed_round.
Qed.

Lemma update_fixed_loop_raises fh (pre post : list (string * string)) n q w :
  (∀ k, k ∈ pre → k ∈ keys fh ∧ k.1 ∈ keys (steps_dict (self w))) →
  n ∉ keys (steps_dict (self w)) →
  for_each (pre ++ (n, q) :: post) (λ '(step_name, hyperparam_name),
    step <- the_step step_name ;;
    v <- subscript fh (step_name, hyperparam_name) ;;
    let step := set_fixed step (setitem (fixed_hyperparams step) hyperparam_name v) in
    let step := set_model step
      (block_update_model (model step) (fixed_hyperparams step)
         (tunable_hyperparams step)) in
    assign_step step_name step) w =
  (set_steps w (foldl (fixed_round block_update_model fh) (steps_dict (self w)) pre),
   Raise (KeyError (KStr n))).
Proof.
  intros Hpre Hn. rewrite for_each_app, update_fixed_loop_ok by done.
  cbn [for_each]. erewrite bind_Raise; [done|].
  erewrite bind_Raise; [done|]. apply the_step_None, getitem_None.
  simpl. by rewrite keys_fixed_rounds.
Qed.

Lemma getitem_fixed_round_ne fh (steps : dict string Block) k m :
  m ≠ k.1 → getitem (fixed_round block_update_model fh steps k) m = getitem steps m.
Proof.
  intros Hm. unfold fixed_round.
  destruct (getitem steps k.1) as [step|]; [|done].
  destruct (getitem fh k); [|done]. by apply getitem_setitem_ne.
Qed.

Lemma getitem_fixed_rounds_frame fh (l : list (string * string))
    (steps : dict string Block) m :
  m ∉ l.*1 → getitem (foldl (fixed_round block_update_model fh) steps l) m = getitem steps m.
Proof.
  revert steps. induction l as [|k l IH]; intros steps Hm; simpl; [done|].
  rewrite fmap_cons, not_elem_of_cons in Hm. destruct Hm as [Hk Hl].
  rewrite IH by done. by apply getitem_fixed_round_ne.
Qed.

Lemma getitem_fixed_rounds_applied fh (l : list (string * string))
    (steps : dict string Block) (m h : string) :
  (∀ k, k ∈ l → k ∈ keys fh ∧ k.1 ∈ keys steps) →
  (m, h) ∈ l →
  ∃ step', getitem (foldl (fixed_round block_update_model fh) steps l) m = Some step'
           ∧ getitem (fixed_hyperparams step') h = getitem fh (m, h).
Proof.
  induction l as [|k l IH] using rev_ind; intros Hl Hin.
  { by apply elem_of_nil in Hin. }
  rewrite foldl_app. cbn [foldl].
  set (steps' := foldl (fixed_round block_update_model fh) steps l).
  destruct (Hl k) as [Hk Hn]; [apply elem_of_app; right; left|].
  apply getitem_is_Some in Hk as [v Hv].
  assert (Hn' : k.1 ∈ keys steps') by (by apply keys_fixed_rounds).
  apply getitem_is_Some in Hn' as [step Hstep].
  unfold fixed_round. rewrite Hstep, Hv.
  destruct (decide (k = (m, h))) as [->|Hne].
  - simpl. rewrite getitem_setitem_eq. eexists. split; [done|].
    simpl. by rewrite getitem_setitem_eq.
  - apply elem_of_app in Hin as [Hin|Hin];
      [|apply list_elem_of_singleton in Hin; congruence].
    destruct IH as (step0 & Hstep0 & Hfixed0); [|done|].
    { intros k' Hk'. apply Hl, elem_of_app. by left. }
    fold steps' in Hstep0. rewrite getitem_setitem.
    destruct (decide (k.1 = m)) as [Hm|Hm].
    + eexists. split; [done|]. simpl. rewrite getitem_setitem_ne.
      * rewrite <-Hm in Hstep0. congruence.
      * intros Hp. apply Hne. destruct k; simpl in *; congruence.
    + by exists step0.
Qed.

(** C4, as the code has it: [update_fixed_hyperparams] raises a [KeyError]
    at the first key, in the order the mapping is iterated, whose step name
    is not in [steps_dict].  The entries before that key have been applied
    by then (the fixed hyperparameter overwritten, the model refreshed); the
    entries after it are not, and the steps that no earlier entry names are
    as before.  When the unknown step comes first, nothing has changed. *)
Theorem update_fixed_raises_at_first_unknown_step fh pre post n q w :
  keys fh = pre ++ (n, q) :: post →
  Forall (λ k, k.1 ∈ keys (steps_dict (self w))) pre →
  n ∉ keys (steps_dict (self w)) →
  let steps' := foldl (fixed_round block_update_model fh) (steps_dict (self w)) pre in
  update_fixed_hyperparams block_update_model fh w =
    (set_steps w steps', Raise (KeyError (KStr n)))
  ∧ (∀ m h : string, (m, h) ∈ pre →
       ∃ step', getitem steps' m = Some step'
                ∧ getitem (fixed_hyperparams step') h = getitem fh (m, h))
  ∧ (∀ m, m ∉ pre.*1 → getitem steps' m = getitem (steps_dict (self w)) m)
  ∧ (pre = [] → set_steps w steps' = w).
Proof.
  intros Hkeys Hpre Hn steps'. rewrite Forall_forall in Hpre.
  assert (Hpre' : ∀ k, k ∈ pre → k ∈ keys fh ∧ k.1 ∈ keys (steps_dict (self w))).
  { intros k Hk. split; [|by apply Hpre]. rewrite Hkeys. apply elem_of_app. by left. }
  split; [|split; [|split]].
  - unfold update_fixed_hyperparams. rewrite Hkeys.
    by apply update_fixed_loop_raises.
  - intros m h Hin. by apply getitem_fixed_rounds_applied.
  - intros m Hm. by apply getitem_fixed_rounds_frame.
  - intros ->. apply set_steps_id.
Qed.

(** ** get_fixed_hyperparams *)

Lemma get_fixed_inner step (l : list string) (acc : dict (string * string) Value) w :
  (∀ h, h ∈ l → h ∈ keys (fixed_hyperparams step)) →
  for_fold l acc (λ acc hp_name,
    v <- subscript (fixed_hyperparams step) hp_name ;;
    ret (setitem acc (name step, hp_name) v)) w =
  (w, Return (foldl (λ acc hp_name,
      match getitem (fixed_hyperparams step) hp_name with
      | Some v => setitem acc (name step, hp_name) v
      | None => acc
      end) acc l)).
Proof.
  revert acc. induction l as [|h l IH]; intros acc Hl; simpl; [done|].
  assert (Hh : h ∈ keys (fixed_hyperparams step)) by (apply Hl; left).
  apply getitem_is_Some in Hh as [v Hv]. rewrite Hv.
  erewrite bind_Return; [apply IH|].
  - intros h' Hh'. apply Hl. by right.
  - by erewrite bind_Return; [|by apply subscript_Some].
Qed.

Lemma get_fixed_outer (ss : list Block) (acc : dict (string * string) Value) w :
  for_fold ss acc (λ acc step,
    for_fold (keys (fixed_hyperparams step)) acc (λ acc hp_name,
      v <- subscript (fixed_hyperparams step) hp_name ;;
      ret (setitem acc (name step, hp_name) v))) w =
  (w, Return (collect_fixed ss acc)).
Proof.
  revert acc. induction ss as [|step ss IH]; intros acc; simpl; [done|].
  erewrite bind_Return; [apply IH|]. by apply get_fixed_inner.
Qed.

Lemma get_fixed_hyperparams_eq w :
  get_fixed_hyperparams w =
  (w, Return (collect_fixed (values (steps_dict (self w))) [])).
Proof. unfold get_fixed_hyperparams, bind at 1, gets. apply get_fixed_outer. Qed.

Lemma getitem_collect_inner step (l : list string)
    (acc : dict (string * string) Value) a b :
  (∀ h, h ∈ l → h ∈ keys (fixed_hyperparams step)) →
  getitem (foldl (λ acc hp_name,
      match getitem (fixed_hyperparams step) hp_name with
      | Some v => setitem acc (name step, hp_name) v
      | None => acc
      end) acc l) (a, b) =
  if decide (a = name step ∧ b ∈ l)
  then getitem (fixed_hyperparams step) b
  else getitem acc (a, b).
Proof.
  revert acc. induction l as [|h l IH]; intros acc Hl.
  { cbn [foldl]. case_decide as Hc; [|done]. destruct Hc as [_ Hc].
    by apply elem_of_nil in Hc. }
  assert (Hh : h ∈ keys (fixed_hyperparams step)) by (apply Hl; left).
  apply getitem_is_Some in Hh as [v Hv].
  cbn [foldl]. rewrite Hv, IH by (intros h' Hh'; apply Hl; by right).
  destruct (decide (a = name step ∧ b ∈ l)) as [[-> Hb]|Hnot].
  - rewrite decide_True; [done|]. split; [done|by right].
  - rewrite getitem_setitem.
    destruct (decide ((name step, h) = (a, b))) as [[= <- <-]|Hne].
    + rewrite decide_True; [done|]. split; [done|left].
    + rewrite decide_False; [done|]. intros [-> Hb].
      apply elem_of_cons in Hb as [->|Hb]; [done|]. apply Hnot. by split.
Qed.

Lemma getitem_collect_fixed (d : dict string Block)
    (acc : dict (string * string) Value) a b :
  wf d → Forall (λ entry, name entry.2 = entry.1) d →
  getitem (collect_fixed (values d) acc) (a, b) =
  match getitem d a with
  | Some step =>
      match getitem (fixed_hyperparams step) b with
      | Some v => Some v
      | None => getitem acc (a, b)
      end
  | None => getitem acc (a, b)
  end.
Proof.
  unfold wf, keys, collect_fixed.
  revert acc. induction d as [|[k step] d IH]; intros acc Hwf Hnames; [done|].
  apply NoDup_cons in Hwf as [Hk Hwf]. apply Forall_cons in Hnames as [Hname Hnames].
  simpl in Hname. subst k. cbn [values fmap list_fmap snd foldl getitem].
  rewrite IH by done. clear IH.
  rewrite !getitem_collect_inner by done.
  destruct (decide (a = name step)) as [->|Hne].
  - assert (Hnone : getitem d (name step) = None) by (by apply getitem_None).
    rewrite Hnone. destruct (getitem (fixed_hyperparams step) b) as [v|] eqn:Hb.
    + rewrite decide_True; [done|]. split; [done|].
      apply getitem_is_Some. by exists v.
    + rewrite decide_False; [done|]. intros [_ Hin].
      apply getitem_is_Some in Hin as [v Hv]. congruence.
  - rewrite decide_False by tauto. done.
Qed.

(** C5: after [update_fixed_hyperparams] with the one entry [(s, h): v],
    [get_fixed_hyperparams] has [v] under [(s, h)] and, under every other
    key, what it had before.  The pipeline has a step named [s]. *)
Theorem update_fixed_then_get_fixed w (s h : string) (v : Value) :
  pipeline_ok (self w) →
  s ∈ keys (steps_dict (self w)) →
  ∃ w' before after,
    get_fixed_hyperparams w = (w, Return before)
    ∧ update_fixed_hyperparams block_update_model [((s, h), v)] w = (w', Return tt)
    ∧ get_fixed_hyperparams w' = (w', Return after)
    ∧ getitem after (s, h) = Some v
    ∧ ∀ k, k ≠ (s, h) → getitem after k = getitem before k.
Proof.
  intros [Hwf Hok] Hs.
  assert (Hnames : Forall (λ entry : string * Block, name entry.2 = entry.1)
                     (steps_dict (self w))).
  { eapply Forall_impl; [exact Hok|]. by intros ? (? & _). }
  pose proof Hs as [step Hstep]%getitem_is_Some.
  set (fh := [((s, h), v)] : dict (string * string) Value).
  set (steps' := setitem (steps_dict (self w)) s
                   (with_fixed_hyperparam block_update_model step h v)).
  assert (Hround : fixed_round block_update_model fh (steps_dict (self w)) (s, h)
                   = steps').
  { unfold fixed_round, fh. simpl. rewrite Hstep. by rewrite decide_True. }
  assert (Hnames' : Forall (λ entry : string * Block, name entry.2 = entry.1) steps').
  { apply Forall_setitem; [done|]. simpl.
    apply getitem_Some_elem in Hstep.
    rewrite Forall_forall in Hnames. apply (Hnames (s, step) Hstep). }
  exists (set_steps w steps'), (collect_fixed (values (steps_dict (self w))) []),
    (collect_fixed (values steps') []).
  split; [apply get_fixed_hyperparams_eq|].
  split.
  { unfold update_fixed_hyperparams.
    etrans; [apply (update_fixed_loop_ok fh [(s, h)] w)|].
    - intros k Hk. apply list_elem_of_singleton in Hk as ->. split; [left|done].
    - simpl. by rewrite Hround. }
  split; [apply get_fixed_hyperparams_eq|].
  split.
  - rewrite getitem_collect_fixed by (done || by apply wf_setitem).
    unfold steps'. rewrite getitem_setitem_eq. simpl.
    by rewrite getitem_setitem_eq.
  - intros [a b] Hne.
    rewrite !getitem_collect_fixed by (done || by apply wf_setitem).
    unfold steps'. rewrite getitem_setitem.
    destruct (decide (s = a)) as [<-|Hsa]; [|done].
    rewrite Hstep. simpl. rewrite getitem_setitem_ne; [done|]. congruence.
Qed.

(** ** update_tunable_hyperparams *)

Implicit Types (σ : ref → @MLHyperparam Value) (r : ref).

Lemma update_tunable_round w r :
  step_name (objects w r) ∈ keys (steps_dict (self w)) →
  (hp <- gets (λ w, objects w r) ;;
   step <- the_step (step_name hp) ;;
   assign_step (step_name hp)
     (set_tunable step (setitem (tunable_hyperparams step) (param_name hp) r))) w =
  (set_steps w (tunable_round (objects w) (steps_dict (self w)) r), Return tt).
Proof.
  intros [step Hstep]%getitem_is_Some. unfold bind at 1, gets.
  erewrite bind_Return; [|by apply the_step_Some].
  unfold tunable_round. by rewrite Hstep.
Qed.

Lemma keys_tunable_round σ (steps : dict string Block) r :
  keys (tunable_round σ steps r) = keys steps.
Proof.
  unfold tunable_round.
  destruct (getitem steps (step_name (σ r))) as [step|] eqn:Hstep; [|done].
  rewrite keys_setitem, decide_True; [done|]. apply getitem_is_Some. by exists step.
Qed.

Lemma keys_tunable_rounds σ (steps : dict string Block) (l : list ref) :
  keys (foldl (tunable_round σ) steps l) = keys steps.
Proof.
  revert steps. induction l as [|r l IH]; intros steps; simpl; [done|].
  by rewrite IH, keys_tunable_round.
Qed.

Lemma update_tunable_loop_ok (l : list ref) w :
  (∀ r, r ∈ l → step_name (objects w r) ∈ keys (steps_dict (self w))) →
  for_each l (λ hyperparam,
    hp <- gets (λ w, objects w hyperparam) ;;
    step <- the_step (step_name hp) ;;
    assign_step (step_name hp)
      (set_tunable step
         (setitem (tunable_hyperparams step) (param_name hp) hyperparam))) w =
  (set_steps w (foldl (tunable_round (objects w)) (steps_dict (self w)) l),
   Return tt).
Proof.
  revert w. induction l as [|r l IH]; intros w Hl.
  - simpl. unfold ret. by rewrite set_steps_id.
  - cbn [for_each foldl].
    erewrite bind_Return; [|apply update_tunable_round, Hl; left].
    etrans; [apply IH|done].
    intros r' Hr'. simpl. rewrite keys_tunable_round. apply Hl. by right.
Qed.

Lemma update_tunable_loop_raises (pre post : list ref) r w :
  (∀ r', r' ∈ pre → step_name (objects w r') ∈ keys (steps_dict (self w))) →
  step_name (objects w r) ∉ keys (steps_dict (self w)) →
  for_each (pre ++ r :: post) (λ hyperparam,
    hp <- gets (λ w, objects w hyperparam) ;;
    step <- the_step (step_name hp) ;;
    assign_step (step_name hp)
      (set_tunable step
         (setitem (tunable_hyperparams step) (param_name hp) hyperparam))) w =
  (set_steps w (foldl (tunable_round (objects w)) (steps_dict (self w)) pre),
   Raise (KeyError (KStr (step_name (objects w r))))).
Proof.
  intros Hpre Hr. rewrite for_each_app, update_tunable_loop_ok by done.
  cbn [for_each]. erewrite bind_Raise; [done|]. unfold bind at 1, gets.
  erewrite bind_Raise; [done|]. apply the_step_None, getitem_None.
  simpl. by rewrite keys_tunable_rounds.
Qed.

(** Whatever the hyperparameters, the first loop stops after a prefix of
    them, with the overwrites of that prefix in place. *)
Lemma update_tunable_loop_prefix (l : list ref) w :
  ∃ pre post o,
    l = pre ++ post ∧
    for_each l (λ hyperparam,
      hp <- gets (λ w, objects w hyperparam) ;;
      step <- the_step (step_name hp) ;;
      assign_step (step_name hp)
        (set_tunable step
           (setitem (tunable_hyperparams step) (param_name hp) hyperparam))) w =
    (set_steps w (foldl (tunable_round (objects w)) (steps_dict (self w)) pre), o)
    ∧ (post = [] → o = Return tt)
    ∧ (post ≠ [] → ∃ e, o = Raise e).
Proof.
  destruct (first_failure
              (λ r, step_name (objects w r) ∈ keys (steps_dict (self w))) l)
    as [Hall|(pre & r & post & -> & Hpre & Hr)].
  - exists l, [], (Return tt). rewrite app_nil_r. split; [done|].
    split; [|by split]. apply update_tunable_loop_ok. by apply Forall_forall.
  - exists pre, (r :: post), (Raise (KeyError (KStr (step_name (objects w r))))).
    split; [done|]. split; [|split; [done|by eexists]].
    apply update_tunable_loop_raises; [|done]. by apply Forall_forall.
Qed.

Lemma getitem_tunable_round σ (steps : dict string Block) r n :
  getitem (tunable_round σ steps r) n =
  (λ step, set_tunable step (step_tunable σ n (tunable_hyperparams step) [r]))
    <$> getitem steps n.
Proof.
  unfold tunable_round, step_tunable. simpl.
  destruct (getitem steps (step_name (σ r))) as [step|] eqn:Hstep.
  - rewrite getitem_setitem. destruct (decide (step_name (σ r) = n)) as [<-|Hne].
    + by rewrite Hstep.
    + destruct (getitem steps n) as [[]|]; done.
  - destruct (decide (step_name (σ r) = n)) as [<-|Hne].
    + by rewrite Hstep.
    + destruct (getitem steps n) as [[]|]; done.
Qed.

Lemma getitem_tunable_rounds σ (l : list ref) (steps : dict string Block) n :
  getitem (foldl (tunable_round σ) steps l) n =
  (λ step, set_tunable step (step_tunable σ n (tunable_hyperparams step) l))
    <$> getitem steps n.
Proof.
  revert steps. induction l as [|r l IH]; intros steps.
  - simpl. destruct (getitem steps n) as [[]|]; done.
  - cbn [foldl]. rewrite IH, getitem_tunable_round.
    destruct (getitem steps n) as [step|]; done.
Qed.

(** A hyperparameter that the list does not name keeps its entry. *)
Lemma step_tunable_untouched σ n (t : dict string ref) (l : list ref) (q : string) :
  (∀ r, r ∈ l → ¬ (step_name (σ r) = n ∧ param_name (σ r) = q)) →
  getitem (step_tunable σ n t l) q = getitem t q.
Proof.
  unfold step_tunable. revert t. induction l as [|r l IH]; intros t Hl; [done|].
  cbn [foldl]. rewrite IH by (intros r' Hr'; apply Hl; by right).
  case_decide as Hn; [|done]. apply getitem_setitem_ne.
  intros Hq. apply (Hl r); [left|done].
Qed.

(** The last hyperparameter of the list with a given step and name is the
    one stored. *)
Lemma step_tunable_last σ n (t : dict string ref) (pre post : list ref) r :
  step_name (σ r) = n →
  (∀ r', r' ∈ post → ¬ (step_name (σ r') = n ∧ param_name (σ r') = param_name (σ r))) →
  getitem (step_tunable σ n t (pre ++ r :: post)) (param_name (σ r)) = Some r.
Proof.
  intros Hn Hpost. unfold step_tunable. rewrite foldl_app. cbn [foldl].
  rewrite decide_True by done.
  fold (step_tunable σ n
          (setitem (foldl (λ t r0, if decide (step_name (σ r0) = n)
                                   then setitem t (param_name (σ r0)) r0 else t) t pre)
             (param_name (σ r)) r) post).
  rewrite step_tunable_untouched by done. apply getitem_setitem_eq.
Qed.

(** C3: [update_tunable_hyperparams] stores every hyperparameter of the
    list under its [param_name] in the tunable mapping of the step its
    [step_name] names, and, with all of them stored, rebuilds the model of
    every step of the pipeline: a new instance of the model's class, made
    from the step's tunable mapping as it then is and from nothing else.
    The fixed hyperparameters stay as they are and are not handed to the
    class.  The steps that the hyperparameters name exist. *)
Theorem update_tunable_overwrites_then_rebuilds w (hps : list ref) :
  Forall (λ r, step_name (objects w r) ∈ keys (steps_dict (self w))) hps →
  ∃ w',
    update_tunable_hyperparams class_of construct hps w = (w', Return tt)
    ∧ objects w' = objects w
    ∧ keys (steps_dict (self w')) = keys (steps_dict (self w))
    ∧ (∀ n step, getitem (steps_dict (self w)) n = Some step →
         let tunable' := step_tunable (objects w) n (tunable_hyperparams step) hps in
         getitem (steps_dict (self w')) n =
         Some (mkMLBlock (name step) (construct (class_of (model step)) tunable')
                 (fixed_hyperparams step) tunable'))
    ∧ (∀ n (t : dict string ref) pre post r,
         hps = pre ++ r :: post →
         step_name (objects w r) = n →
         (∀ r', r' ∈ post → ¬ (step_name (objects w r') = n
                               ∧ param_name (objects w r') = param_name (objects w r))) →
         getitem (step_tunable (objects w) n t hps) (param_name (objects w r)) = Some r)
    ∧ (∀ n (t : dict string ref) (q : string),
         (∀ r, r ∈ hps → ¬ (step_name (objects w r) = n ∧ param_name (objects w r) = q)) →
         getitem (step_tunable (objects w) n t hps) q = getitem t q).
Proof.
  intros Hhps. rewrite Forall_forall in Hhps.
  set (steps1 := foldl (tunable_round (objects w)) (steps_dict (self w)) hps).
  exists (set_steps w (map_values (rebuild class_of construct) steps1)).
  split.
  { unfold update_tunable_hyperparams.
    erewrite bind_Return; [|by apply update_tunable_loop_ok]. done. }
  split; [done|]. split.
  { simpl. unfold steps1. by rewrite keys_map_values, keys_tunable_rounds. }
  split.
  { intros n step Hstep. simpl.
    rewrite getitem_map_values. unfold steps1.
    rewrite getitem_tunable_rounds, Hstep. done. }
  split.
  - intros n t pre post r -> Hn Hpost. by apply step_tunable_last.
  - intros n t q Hq. by apply step_tunable_untouched.
Qed.

(** X9: when a hyperparameter names a step that the pipeline does not
    have, [update_tunable_hyperparams] raises a [KeyError] for the first
    such hyperparameter, and the error comes before any model is rebuilt:
    every step has the model it had. *)
Lemma update_tunable_raises_before_rebuild w (pre post : list ref) r :
  Forall (λ r', step_name (objects w r') ∈ keys (steps_dict (self w))) pre →
  step_name (objects w r) ∉ keys (steps_dict (self w)) →
  ∃ w',
    update_tunable_hyperparams class_of construct (pre ++ r :: post) w =
      (w', Raise (KeyError (KStr (step_name (objects w r)))))
    ∧ ∀ n step, getitem (steps_dict (self w)) n = Some step →
        ∃ step', getitem (steps_dict (self w')) n = Some step'
                 ∧ model step' = model step.
Proof.
  intros Hpre Hr. rewrite Forall_forall in Hpre.
  eexists. split.
  - unfold update_tunable_hyperparams.
    erewrite bind_Raise; [done|]. by apply update_tunable_loop_raises.
  - intros n step Hstep. simpl. rewrite getitem_tunable_rounds, Hstep.
    by eexists.
Qed.

(** ** get_tunable_hyperparams *)

Lemma get_tunable_hyperparams_eq w :
  get_tunable_hyperparams w = (w, Return (all_tunable (self w))).
Proof. done. Qed.

Lemma elem_of_values {K V} (d : dict K V) (v : V) :
  v ∈ values d ↔ ∃ k, (k, v) ∈ d.
Proof.
  unfold values. rewrite list_elem_of_fmap. split.
  - intros ([k v'] & -> & Hin). by exists k.
  - intros [k Hin]. by exists (k, v).
Qed.

Lemma elem_of_all_tunable p r : r ∈ all_tunable p ↔ held_by (steps_dict p) r.
Proof.
  unfold all_tunable, held_by.
  assert (Hgen : ∀ (ss : list Block) (acc : list ref),
    r ∈ foldl (λ acc step, acc ++ values (tunable_hyperparams step)) acc ss ↔
    r ∈ acc ∨ ∃ step, step ∈ ss ∧ r ∈ values (tunable_hyperparams step)).
  { induction ss as [|s ss IH]; intros acc; simpl.
    - split; [by left|]. intros [?|(? & Hin & _)]; [done|].
      by apply elem_of_nil in Hin.
    - rewrite IH, elem_of_app. split.
      + intros [[?|?]|(step & ? & ?)]; [by left| |].
        * right. exists s. split; [left|done].
        * right. exists step. split; [by right|done].
      + intros [?|(step & Hin & ?)]; [by left; left|].
        apply elem_of_cons in Hin as [->|Hin]; [by left; right|].
        right. by exists step. }
  rewrite Hgen. split.
  - intros [Hnil|(step & [n Hstep]%elem_of_values & [q Hr]%elem_of_values)].
    + by apply elem_of_nil in Hnil.
    + by exists n, step, q.
  - intros (n & step & q & Hstep & Hr). right. exists step.
    split; apply elem_of_values; eauto.
Qed.

Lemma set_tunable_id step : set_tunable step (tunable_hyperparams step) = step.
Proof. by destruct step. Qed.

Lemma tunable_round_id σ (steps : dict string Block) r step :
  getitem steps (step_name (σ r)) = Some step →
  getitem (tunable_hyperparams step) (param_name (σ r)) = Some r →
  tunable_round σ steps r = steps.
Proof.
  intros Hstep Hr. unfold tunable_round. rewrite Hstep.
  rewrite (setitem_id _ _ _ Hr), set_tunable_id. by apply setitem_id.
Qed.

Lemma foldl_id {A B} (f : A → B → A) (a : A) (l : list B) :
  (∀ b, b ∈ l → f a b = a) → foldl f a l = a.
Proof.
  induction l as [|b l IH]; intros Hl; simpl; [done|].
  rewrite (Hl b) by left. apply IH. intros b' Hb'. apply Hl. by right.
Qed.

(** Under the invariants of the data model a hyperparameter that a step
    holds is found again through its own [step_name] and [param_name]. *)
Lemma held_by_lookup σ p r :
  pipeline_ok p → hyperparams_ok σ p → held_by (steps_dict p) r →
  ∃ step, getitem (steps_dict p) (step_name (σ r)) = Some step
          ∧ getitem (tunable_hyperparams step) (param_name (σ r)) = Some r.
Proof.
  intros [Hwf Hok] Hhp (n & step & q & Hstep & Hr).
  unfold hyperparams_ok in Hhp.
  rewrite Forall_forall in Hok. rewrite Forall_forall in Hhp.
  destruct (Hok _ Hstep) as (_ & _ & Hwft). simpl in Hwft.
  specialize (Hhp _ Hstep). simpl in Hhp. rewrite Forall_forall in Hhp.
  destruct (Hhp _ Hr) as [Hsn Hpn]. simpl in Hsn, Hpn. rewrite Hsn, Hpn.
  exists step. split; by apply elem_getitem.
Qed.

Lemma pipeline_ok_rebuild p :
  pipeline_ok p →
  pipeline_ok (mkMLPipeline (map_values (rebuild class_of construct) (steps_dict p))
                 (dataflow p)).
Proof.
  intros [Hwf Hok]. split; simpl.
  - unfold wf. by rewrite keys_map_values.
  - unfold map_values. apply Forall_fmap. eapply Forall_impl; [exact Hok|].
    by intros [n step].
Qed.

Lemma hyperparams_ok_rebuild σ p :
  hyperparams_ok σ p →
  hyperparams_ok σ (mkMLPipeline (map_values (rebuild class_of construct) (steps_dict p))
                      (dataflow p)).
Proof.
  unfold hyperparams_ok. simpl. intros Hok.
  unfold map_values. apply Forall_fmap. eapply Forall_impl; [exact Hok|].
  by intros [n step].
Qed.

(** C7: handing the hyperparameters that [get_tunable_hyperparams] returns
    back to [update_tunable_hyperparams], as they are, changes no
    hyperparameter: every step keeps its tunable mapping, its fixed
    hyperparameters and its name, no hyperparameter object changes, and the
    model of every step is rebuilt from the very tunable mapping the step
    had before the call.  The invariants of the data model hold before and
    after, so that the same holds for the next round. *)
Theorem get_then_update_tunable_changes_nothing w :
  pipeline_ok (self w) →
  hyperparams_ok (objects w) (self w) →
  ∃ hps w',
    get_tunable_hyperparams w = (w, Return hps)
    ∧ update_tunable_hyperparams class_of construct hps w = (w', Return tt)
    ∧ objects w' = objects w
    ∧ keys (steps_dict (self w')) = keys (steps_dict (self w))
    ∧ (∀ n step, getitem (steps_dict (self w)) n = Some step →
         getitem (steps_dict (self w')) n =
         Some (mkMLBlock (name step)
                 (construct (class_of (model step)) (tunable_hyperparams step))
                 (fixed_hyperparams step) (tunable_hyperparams step)))
    ∧ pipeline_ok (self w')
    ∧ hyperparams_ok (objects w') (self w').
Proof.
  intros Hok Hhp.
  exists (all_tunable (self w)),
    (set_steps w (map_values (rebuild class_of construct) (steps_dict (self w)))).
  assert (Hfound : ∀ r, r ∈ all_tunable (self w) →
            ∃ step, getitem (steps_dict (self w)) (step_name (objects w r)) = Some step
                    ∧ getitem (tunable_hyperparams step) (param_name (objects w r)) = Some r).
  { intros r Hr. apply held_by_lookup; [done..|]. by apply elem_of_all_tunable. }
  assert (Hid : foldl (tunable_round (objects w)) (steps_dict (self w))
                  (all_tunable (self w)) = steps_dict (self w)).
  { apply foldl_id. intros r Hr. destruct (Hfound r Hr) as (step & Hstep & Hq).
    by apply (tunable_round_id _ _ _ step). }
  split; [done|]. split.
  { pose proof (update_tunable_loop_ok (all_tunable (self w)) w) as Hloop.
    rewrite Hid, set_steps_id in Hloop.
    unfold update_tunable_hyperparams.
    erewrite bind_Return; [done|]. apply Hloop. intros r Hr.
    destruct (Hfound r Hr) as (step & Hstep & _).
    apply getitem_is_Some. by exists step. }
  split; [done|]. split; [simpl; by rewrite keys_map_values|].
  split.
  { intros n step Hstep. simpl. by rewrite getitem_map_values, Hstep. }
  split; [by apply pipeline_ok_rebuild|by apply hyperparams_ok_rebuild].
Qed.

(** ** set_from_hyperparam_dict *)

Implicit Types (hd : dict string Value).

Lemma assigned_idemp hd (hp : @MLHyperparam Value) :
  assigned hd (assigned hd hp) = assigned hd hp.
Proof.
  unfold assigned. destruct (getitem hd (param_name hp)) as [v|] eqn:Hv; simpl.
  - by rewrite Hv.
  - by rewrite Hv.
Qed.

Lemma param_name_assigned hd (hp : @MLHyperparam Value) :
  param_name (assigned hd hp) = param_name hp.
Proof. unfold assigned. by destruct (getitem hd (param_name hp)). Qed.

Lemma value_assigned hd (hp : @MLHyperparam Value) v :
  getitem hd (param_name hp) = Some v → value (assigned hd hp) = v.
Proof. unfold assigned. by intros ->. Qed.

Lemma assign_round hd r w :
  (hp <- gets (λ w, objects w r) ;;
   if contains hd (param_name hp)
   then v <- subscript hd (param_name hp) ;;
        modify (λ w, set_object w r (set_value hp v))
   else ret tt) w =
  (match getitem hd (param_name (objects w r)) with
   | Some v => set_object w r (set_value (objects w r) v)
   | None => w
   end, Return tt).
Proof.
  unfold bind at 1, gets, contains.
  destruct (getitem hd (param_name (objects w r))) as [v|] eqn:Hv; [|done].
  by erewrite bind_Return; [|by apply subscript_Some].
Qed.

Lemma assign_loop hd (l : list ref) w :
  ∃ w1,
    for_each l (λ r,
      hp <- gets (λ w, objects w r) ;;
      if contains hd (param_name hp)
      then v <- subscript hd (param_name hp) ;;
           modify (λ w, set_object w r (set_value hp v))
      else ret tt) w = (w1, Return tt)
    ∧ self w1 = self w
    ∧ calls w1 = calls w
    ∧ ∀ r, objects w1 r =
           if decide (r ∈ l) then assigned hd (objects w r) else objects w r.
Proof.
  revert w. induction l as [|r0 l IH]; intros w.
  { exists w. split; [done|]. split; [done|]. split; [done|]. intros r.
    case_decide as Hin; [by apply elem_of_nil in Hin|done]. }
  set (w0 := match getitem hd (param_name (objects w r0)) with
             | Some v => set_object w r0 (set_value (objects w r0) v)
             | None => w
             end).
  assert (Hw0 : self w0 = self w ∧ calls w0 = calls w ∧
                ∀ r, objects w0 r =
                     if decide (r = r0) then assigned hd (objects w r0) else objects w r).
  { unfold w0, assigned.
    destruct (getitem hd (param_name (objects w r0))) as [v|]; simpl.
    - by split; [|split].
    - split; [done|]. split; [done|]. intros r. by case_decide; subst. }
  destruct Hw0 as (Hself0 & Hcalls0 & Hobj0).
  destruct (IH w0) as (w1 & Hrun & Hself & Hcalls & Hobj).
  exists w1. split.
  { cbn [for_each]. erewrite bind_Return; [exact Hrun|]. apply assign_round. }
  split; [congruence|]. split; [congruence|].
  intros r. rewrite Hobj, !Hobj0.
  destruct (decide (r = r0)) as [->|Hne].
  - rewrite (decide_True (P := r0 ∈ r0 :: l)) by left.
    case_decide; [apply assigned_idemp|done].
  - destruct (decide (r ∈ l)) as [Hin|Hin].
    + rewrite decide_True; [done|by right].
    + rewrite decide_False; [done|]. rewrite not_elem_of_cons. tauto.
Qed.

Lemma held_by_tunable_round σ (steps : dict string Block) r r' :
  held_by (tunable_round σ steps r) r' → held_by steps r' ∨ r' = r.
Proof.
  unfold tunable_round.
  destruct (getitem steps (step_name (σ r))) as [step|] eqn:Hstep; [|by left].
  intros (n & step' & q & Hin & Hq).
  apply elem_setitem in Hin as [Hin|Heq].
  - left. by exists n, step', q.
  - inversion Heq; subst. simpl in Hq.
    apply elem_setitem in Hq as [Hq|Heq']; [|right; by inversion Heq'].
    left. exists (step_name (σ r)), step, q. split; [|done].
    by apply getitem_Some_elem.
Qed.

Lemma held_by_tunable_rounds σ (l : list ref) (steps : dict string Block) r' :
  held_by (foldl (tunable_round σ) steps l) r' → held_by steps r' ∨ r' ∈ l.
Proof.
  revert steps. induction l as [|r l IH]; intros steps; simpl; [by left|].
  intros [Hheld|Hin]%IH; [|by right; right].
  apply held_by_tunable_round in Hheld as [?| ->]; [by left|right; left].
Qed.

Lemma held_by_rebuild (steps : dict string Block) r :
  held_by (map_values (rebuild class_of construct) steps) r → held_by steps r.
Proof.
  intros (n & step & q & Hin & Hq). unfold map_values in Hin.
  apply list_elem_of_fmap in Hin as ([n' step'] & Heq & Hin).
  inversion Heq; subst. by exists n', step', q.
Qed.

(** However [update_tunable_hyperparams] ends, it changes no hyperparameter
    object, and the steps hold no other objects than those they held and
    those of the list. *)
Lemma update_tunable_holds (l : list ref) w :
  ∃ steps' o,
    update_tunable_hyperparams class_of construct l w = (set_steps w steps', o)
    ∧ ∀ r, held_by steps' r → held_by (steps_dict (self w)) r ∨ r ∈ l.
Proof.
  destruct (update_tunable_loop_prefix l w) as (pre & post & o & -> & Hrun & Hok & Hko).
  unfold update_tunable_hyperparams. destruct post as [|r post].
  - rewrite (Hok eq_refl) in Hrun. rewrite app_nil_r in *.
    exists (map_values (rebuild class_of construct)
              (foldl (tunable_round (objects w)) (steps_dict (self w)) pre)),
      (Return tt).
    split; [by erewrite bind_Return; [|exact Hrun]|].
    intros r [Hheld|Hin]%held_by_rebuild%held_by_tunable_rounds; eauto.
  - destruct Hko as [e ->]; [done|].
    exists (foldl (tunable_round (objects w)) (steps_dict (self w)) pre), (Raise e).
    split; [by erewrite bind_Raise; [|exact Hrun]|].
    intros r' [Hheld|Hin]%held_by_tunable_rounds; [by left|].
    right. apply elem_of_app. by left.
Qed.

(** C6: [set_from_hyperparam_dict] gives every tunable hyperparameter of
    every step whose [param_name] is a key of the mapping the value the
    mapping has for that key, whatever the step, leaves the others as they
    are, and then runs [update_tunable_hyperparams] on all the tunable
    hyperparameters.  Two steps that each have a hyperparameter named "lr"
    both end with the value given for "lr". *)
Theorem set_from_hyperparam_dict_broadcasts w hd :
  ∃ w1 w' o,
    (self w1 = self w
     ∧ calls w1 = calls w
     ∧ ∀ r, objects w1 r =
            if decide (r ∈ all_tunable (self w))
            then assigned hd (objects w r) else objects w r)
    ∧ set_from_hyperparam_dict class_of construct hd w =
      update_tunable_hyperparams class_of construct (all_tunable (self w)) w1
    ∧ update_tunable_hyperparams class_of construct (all_tunable (self w)) w1 = (w', o)
    ∧ objects w' = objects w1
    ∧ (∀ n step (q : string) r (v : Value),
         (n, step) ∈ steps_dict (self w) →
         (q, r) ∈ tunable_hyperparams step →
         getitem hd (param_name (objects w r)) = Some v →
         objects w' r = set_value (objects w r) v)
    ∧ (∀ n step (q : string) r,
         (n, step) ∈ steps_dict (self w) →
         (q, r) ∈ tunable_hyperparams step →
         getitem hd (param_name (objects w r)) = None →
         objects w' r = objects w r)
    ∧ (∀ n step (q : string) r (v : Value),
         (n, step) ∈ steps_dict (self w') →
         (q, r) ∈ tunable_hyperparams step →
         getitem hd (param_name (objects w' r)) = Some v →
         value (objects w' r) = v).
Proof.
  destruct (assign_loop hd (all_tunable (self w)) w)
    as (w1 & Hrun & Hself & Hcalls & Hobj).
  destruct (update_tunable_holds (all_tunable (self w)) w1)
    as (steps' & o & Hupd & Hheld).
  exists w1, (set_steps w1 steps'), o.
  assert (Hall : ∀ r, held_by (steps_dict (self w)) r →
                      objects w1 r = assigned hd (objects w r)).
  { intros r Hr. rewrite Hobj, decide_True; [done|]. by apply elem_of_all_tunable. }
  split; [done|]. split.
  { unfold set_from_hyperparam_dict.
    rewrite (bind_Return _ _ w w (all_tunable (self w))) by done.
    by erewrite bind_Return. }
  split; [done|]. split; [done|]. split; [|split].
  - intros n step q r v Hstep Hq Hv. simpl. rewrite Hall by (by exists n, step, q).
    unfold assigned. by rewrite Hv.
  - intros n step q r Hstep Hq Hv. simpl. rewrite Hall by (by exists n, step, q).
    unfold assigned. by rewrite Hv.
  - intros n step q r v Hstep Hq. simpl in *.
    assert (Hr : held_by (steps_dict (self w)) r).
    { destruct (Hheld r) as [Hr|Hr]; [by exists n, step, q| |].
      - by rewrite Hself in Hr.
      - by apply elem_of_all_tunable. }
    rewrite Hall by done. rewrite param_name_assigned. apply value_assigned.
Qed.

(** ** to_dict *)

(** C9, as the code has it: the keys of [to_dict] are exactly the strings
    [step_name__param_name] of the tunable hyperparameters of all the
    steps, each of them once, and a key is mapped to the value of the last
    hyperparameter that gives that key.  Every hyperparameter finds its own
    value under its key when the hyperparameters that share a key share
    their value; a pipeline whose one tunable hyperparameter is
    [step1.alpha = 0.5] gives [{"step1__alpha": 0.5}]. *)
Theorem to_dict_keys_and_values w :
  let hps := all_tunable (self w) in
  let σ := objects w in
  let entries := (λ r, (dict_key σ r, value (σ r))) <$> hps in
  ∃ d,
    to_dict w = (w, Return d)
    ∧ wf d
    ∧ (∀ k, k ∈ keys d ↔ ∃ r, r ∈ hps ∧ dict_key σ r = k)
    ∧ (∀ k, getitem d k = last_binding entries k)
    ∧ ((∀ r r', r ∈ hps → r' ∈ hps → dict_key σ r = dict_key σ r' →
          value (σ r) = value (σ r')) →
       ∀ r, r ∈ hps → getitem d (dict_key σ r) = Some (value (σ r))).
Proof.
  intros hps σ entries. exists (of_items entries).
  assert (Hkeys : ∀ k, k ∈ keys (of_items entries) ↔ ∃ r, r ∈ hps ∧ dict_key σ r = k).
  { intros k. rewrite elem_keys_of_items. unfold entries.
    rewrite <-list_fmap_compose, list_elem_of_fmap. split.
    - intros (r & -> & Hr). by exists r.
    - intros (r & Hr & <-). by exists r. }
  split; [done|]. split; [apply wf_of_items|]. split; [done|].
  split; [apply getitem_of_items|].
  intros Hagree r Hr.
  assert (Hin : dict_key σ r ∈ keys (of_items entries)) by (apply Hkeys; eauto).
  apply getitem_is_Some in Hin as [v Hv]. rewrite Hv. f_equal.
  apply getitem_Some_elem, elem_of_items in Hv.
  apply list_elem_of_fmap in Hv as (r' & Heq & Hr'). inversion Heq; subst.
  symmetry. by apply Hagree.
Qed.

(** ** __init__ *)

(** C8: the constructor takes any list of steps.  [steps_dict] has every
    name of the list once, each entry is a step of the list under its own
    name, and the step kept under a name is the last step of the list with
    that name: the earlier steps of that name are not in the pipeline.
    Without a [dataflow] argument, [dataflow] is the list of the names of
    the steps, in the order of the list, repeated names included. *)
Theorem init_keeps_the_last_step_of_a_name (steps : list Block)
    (df : option (list string)) :
  let p := init steps df in
  wf (steps_dict p)
  ∧ (∀ n, n ∈ keys (steps_dict p) ↔ ∃ step, step ∈ steps ∧ name step = n)
  ∧ Forall (λ entry, name entry.2 = entry.1 ∧ entry.2 ∈ steps) (steps_dict p)
  ∧ (∀ pre step post,
       steps = pre ++ step :: post →
       (∀ s, s ∈ post → name s ≠ name step) →
       getitem (steps_dict p) (name step) = Some step)
  ∧ dataflow (init steps None) = name <$> steps
  ∧ (∀ l, dataflow (init steps (Some l)) = l).
Proof.
  intros p. split; [apply wf_of_items|]. split; [|split; [|split]].
  - intros n. simpl. rewrite elem_keys_of_items, <-list_fmap_compose.
    rewrite list_elem_of_fmap. split.
    + intros (s & -> & Hs). by exists s.
    + intros (s & Hs & <-). by exists s.
  - apply Forall_forall. intros [n step] Hin. simpl in *.
    apply elem_of_items, list_elem_of_fmap in Hin as (s & Heq & Hs).
    by inversion Heq; subst.
  - intros pre step post -> Hpost. simpl.
    rewrite getitem_of_items, fmap_app, fmap_cons.
    apply last_binding_last. rewrite <-list_fmap_compose.
    intros (s & Heq & Hs)%list_elem_of_fmap. simpl in Heq.
    by apply (Hpost s).
  - done.
Qed.

End pipeline_facts.

(** * More about the pipeline *)

Section more_loop_facts.
Context {S : Type}.

Lemma for_fold_app {X A} (l1 l2 : list X) (a : A) (body : A → X → M S A) (s : S) :
  for_fold (l1 ++ l2) a body s =
  match for_fold l1 a body s with
  | (s', Return a') => for_fold l2 a' body s'
  | (s', Raise e) => (s', Raise e)
  end.
Proof.
  revert a s. induction l1 as [|x l1 IH]; intros a s; simpl; [done|].
  unfold bind. destruct (body a x s) as [s' [a'|e]]; [apply IH|done].
Qed.
End more_loop_facts.

Section more_pipeline_facts.
Context {Value Data Label Model Class : Type}.
Context (class_of : Model → Class).
Context (construct : Class → dict string ref → Model).
Context (block_fit : Model → Data → Label → dict string Value → Model).
Context (block_produce : Model → Data → Data).
Context (block_update_model : Model → dict string Value → dict string ref → Model).

Abbreviation World := (@world Value Data Label Model).
Abbreviation Pipeline := (@MLPipeline Value Model).
Abbreviation Block := (@MLBlock Value Model).
Abbreviation Call := (@call Value Data Label).
Implicit Types (w : World) (step : Block) (x : Data) (y : Label).
Implicit Types (σ : ref → @MLHyperparam Value) (r : ref).
Implicit Types (fp fh : dict (string * string) Value).

(** ** predict, when a step is missing *)

Lemma predict_loop_raises (pre post : list string) (n : string) x w :
  (∀ m, m ∈ pre → m ∈ keys (steps_dict (self w))) →
  n ∉ keys (steps_dict (self w)) →
  for_fold (pre ++ n :: post) x (λ transformed_data step_name,
    step <- the_step step_name ;;
    modify (λ w, log w (CallProduce step_name transformed_data)) ;;
    ret (block_produce (model step) transformed_data)) w =
  (mkWorld (self w) (objects w)
     (calls w ++ produce_calls block_produce (self w) pre x),
   Raise (KeyError (KStr n))).
Proof.
  intros Hpre Hn. rewrite for_fold_app, predict_loop by done.
  cbn [for_fold]. erewrite bind_Raise; [done|].
  erewrite bind_Raise; [done|]. apply the_step_None. by apply getitem_None.
Qed.

(** X1: when [dataflow] has a name that [steps_dict] does not have,
    [predict] raises a [KeyError] for the first such name.  The steps before
    it have been asked to produce, each on the output of the one before,
    and the pipeline is unchanged. *)
Theorem predict_raises_at_first_missing_step w x (pre post : list string) (n : string) :
  dataflow (self w) = pre ++ n :: post →
  Forall (λ m, m ∈ keys (steps_dict (self w))) pre →
  n ∉ keys (steps_dict (self w)) →
  predict block_produce x w =
  (mkWorld (self w) (objects w)
     (calls w ++ produce_calls block_produce (self w) pre x),
   Raise (KeyError (KStr n))).
Proof.
  intros Hdf Hpre Hn. rewrite Forall_forall in Hpre.
  unfold predict, bind at 1, gets. rewrite Hdf.
  by apply predict_loop_raises.
Qed.

(** X2: however it ends, [predict] changes neither the steps nor the
    hyperparameters; it calls [produce] only, on the steps of a prefix of
    [dataflow], in that order. *)
Theorem predict_changes_nothing w x :
  ∃ made : list Call,
    (predict block_produce x w).1 = mkWorld (self w) (objects w) (calls w ++ made)
    ∧ Forall (λ c, is_produce c = true) made
    ∧ (call_step <$> made) `prefix_of` dataflow (self w).
Proof.
  destruct (first_failure (λ m, m ∈ keys (steps_dict (self w))) (dataflow (self w)))
    as [Hall|(pre & n & post & Hdf & Hpre & Hn)].
  - exists (produce_calls block_produce (self w) (dataflow (self w)) x).
    split; [|split].
    + unfold predict, bind at 1, gets. rewrite predict_loop; [done|].
      by apply Forall_forall.
    + apply is_produce_produce_calls.
    + by rewrite call_step_produce_calls.
  - exists (produce_calls block_produce (self w) pre x).
    split; [|split].
    + unfold predict, bind at 1, gets. rewrite Hdf, predict_loop_raises; [done| |done].
      by apply Forall_forall.
    + apply is_produce_produce_calls.
    + rewrite call_step_produce_calls, Hdf. by exists (n :: post).
Qed.

(** ** fit, when a step is missing, and what fit leaves alone *)

Lemma keys_fit_rounds_eq y (kwargs : string → dict string Value)
    (names : list string) (steps : dict string Block) x :
  keys (fit_rounds block_fit block_produce y kwargs names steps x).1 = keys steps.
Proof.
  revert steps x. induction names as [|n names IH]; intros steps x; simpl; [done|].
  destruct (getitem steps n) as [step|] eqn:Hstep; [|done]. simpl.
  etrans; [apply IH|]. rewrite keys_setitem, decide_True; [done|].
  apply getitem_is_Some. by exists step.
Qed.

Lemma fit_loop_raises y (kwargs : string → dict string Value)
    (pd : dict string (dict string Value)) (pre post : list string) (n : string) x w :
  (∀ m, m ∈ pre → m ∈ keys (steps_dict (self w))) →
  (∀ m, m ∈ pre → getitem pd m = Some (kwargs m)) →
  n ∉ keys (steps_dict (self w)) →
  let rounds := fit_rounds block_fit block_produce y kwargs pre
                  (steps_dict (self w)) x in
  for_fold (pre ++ n :: post) x (λ transformed_data step_name,
    step <- the_step step_name ;;
    kwargs <- subscript pd step_name ;;
    modify (λ w, log w (CallFit step_name transformed_data y kwargs)) ;;
    let step := set_model step (block_fit (model step) transformed_data y kwargs) in
    assign_step step_name step ;;
    modify (λ w, log w (CallProduce step_name transformed_data)) ;;
    ret (block_produce (model step) transformed_data)) w =
  (mkWorld (mkMLPipeline rounds.1 (dataflow (self w))) (objects w)
     (calls w ++ rounds.2),
   Raise (KeyError (KStr n))).
Proof.
  intros Hsteps Hpd Hn rounds. rewrite for_fold_app.
  destruct (fit_loop block_fit block_produce y kwargs pd pre x w Hsteps Hpd)
    as [x' Hrun].
  rewrite Hrun. cbn [for_fold]. erewrite bind_Raise; [done|].
  erewrite bind_Raise; [done|]. apply the_step_None, getitem_None.
  rewrite <-(keys_fit_rounds_eq y kwargs pre (steps_dict (self w)) x) in Hn.
  exact Hn.
Qed.

Lemma fit_missing_step w x y fp (pre post : list string) (n : string) :
  (∀ k, k ∈ keys fp → k.1 ∈ dataflow (self w)) →
  dataflow (self w) = pre ++ n :: post →
  (∀ m, m ∈ pre → m ∈ keys (steps_dict (self w))) →
  n ∉ keys (steps_dict (self w)) →
  let rounds := fit_rounds block_fit block_produce y (step_kwargs fp) pre
                  (steps_dict (self w)) x in
  fit block_fit block_produce x y fp w =
  (mkWorld (mkMLPipeline rounds.1 (dataflow (self w))) (objects w)
     (calls w ++ rounds.2),
   Raise (KeyError (KStr n))).
Proof.
  intros Hfp Hdf Hpre Hn rounds.
  destruct (fit_param_dict_ok fp w Hfp) as (pd & Hpd & Hget).
  assert (Hpd' : ∀ m, m ∈ pre → getitem pd m = Some (step_kwargs fp m)).
  { intros m Hm. apply Hget. rewrite Hdf. apply elem_of_app. by left. }
  pose proof (fit_loop_raises y (step_kwargs fp) pd pre post n x w Hpre Hpd' Hn)
    as Hrun.
  rewrite <-Hdf in Hrun.
  unfold fit. erewrite bind_Return; [|exact Hpd].
  unfold bind at 1, gets. by erewrite bind_Raise; [|exact Hrun].
Qed.

Lemma fit_all_steps w x y fp :
  (∀ k, k ∈ keys fp → k.1 ∈ dataflow (self w)) →
  (∀ m, m ∈ dataflow (self w) → m ∈ keys (steps_dict (self w))) →
  let rounds := fit_rounds block_fit block_produce y (step_kwargs fp)
                  (dataflow (self w)) (steps_dict (self w)) x in
  fit block_fit block_produce x y fp w =
  (mkWorld (mkMLPipeline rounds.1 (dataflow (self w))) (objects w)
     (calls w ++ rounds.2),
   Return tt).
Proof.
  intros Hfp Hsteps rounds.
  destruct (fit_param_dict_ok fp w Hfp) as (pd & Hpd & Hget).
  destruct (fit_loop block_fit block_produce y (step_kwargs fp) pd
              (dataflow (self w)) x w Hsteps Hget) as [x' Hrun].
  unfold fit. erewrite bind_Return; [|exact Hpd].
  unfold bind at 1, gets. by erewrite bind_Return; [|exact Hrun].
Qed.

(** X3: when [dataflow] has a name that [steps_dict] does not have, [fit]
    raises a [KeyError] for the first such name, after it has fitted the
    steps before it and asked them to produce: those steps stay fitted.  The
    keys of [fit_params] name steps of [dataflow]. *)
Theorem fit_raises_at_first_missing_step w x y fp (pre post : list string) (n : string) :
  Forall (λ k, k.1 ∈ dataflow (self w)) (keys fp) →
  dataflow (self w) = pre ++ n :: post →
  Forall (λ m, m ∈ keys (steps_dict (self w))) pre →
  n ∉ keys (steps_dict (self w)) →
  let rounds := fit_rounds block_fit block_produce y (step_kwargs fp) pre
                  (steps_dict (self w)) x in
  fit block_fit block_produce x y fp w =
  (mkWorld (mkMLPipeline rounds.1 (dataflow (self w))) (objects w)
     (calls w ++ rounds.2),
   Raise (KeyError (KStr n))).
Proof.
  intros Hfp Hdf Hpre Hn. rewrite Forall_forall in Hfp. rewrite Forall_forall in Hpre.
  by apply (fit_missing_step w x y fp pre post n).
Qed.

(** The steps after some rounds of [fit] differ from the steps before in
    their models only. *)
Lemma getitem_fit_rounds y (kwargs : string → dict string Value)
    (names : list string) (steps : dict string Block) x (n : string) :
  match getitem steps n,
        getitem (fit_rounds block_fit block_produce y kwargs names steps x).1 n with
  | Some step, Some step' =>
      name step' = name step
      ∧ fixed_hyperparams step' = fixed_hyperparams step
      ∧ tunable_hyperparams step' = tunable_hyperparams step
      ∧ (n ∉ names → step' = step)
  | None, None => True
  | _, _ => False
  end.
Proof.
  revert steps x. induction names as [|m names IH]; intros steps x; simpl.
  - by destruct (getitem steps n).
  - destruct (getitem steps m) as [step0|] eqn:Hm; simpl.
    + specialize (IH (setitem steps m
                        (set_model step0 (block_fit (model step0) x y (kwargs m))))
                     (block_produce (block_fit (model step0) x y (kwargs m)) x)).
      rewrite getitem_setitem in IH.
      destruct (decide (m = n)) as [->|Hne].
      * rewrite Hm.
        destruct (getitem (fit_rounds _ _ _ _ _ _ _).1 n) as [step'|]; [|done].
        destruct IH as (-> & -> & -> & _). split_and!; try done.
        intros Hn. exfalso. apply Hn. left.
      * destruct (getitem steps n) as [step|];
          destruct (getitem (fit_rounds _ _ _ _ _ _ _).1 n) as [step'|]; try done.
        destruct IH as (-> & -> & -> & Hsame). split_and!; try done.
        intros Hn. apply Hsame. rewrite not_elem_of_cons in Hn. tauto.
    + by destruct (getitem steps n).
Qed.

(** X4: however it ends, [fit] changes models only: the hyperparameter
    objects, [dataflow], the names under which [steps_dict] has steps, and
    the name and the fixed and tunable hyperparameters of every step are as
    before, and a step that [dataflow] does not name is untouched. *)
Theorem fit_changes_models_only w x y fp :
  let w' := (fit block_fit block_produce x y fp w).1 in
  objects w' = objects w
  ∧ dataflow (self w') = dataflow (self w)
  ∧ keys (steps_dict (self w')) = keys (steps_dict (self w))
  ∧ ∀ (n : string) step,
      getitem (steps_dict (self w)) n = Some step →
      ∃ step',
        getitem (steps_dict (self w')) n = Some step'
        ∧ name step' = name step
        ∧ fixed_hyperparams step' = fixed_hyperparams step
        ∧ tunable_hyperparams step' = tunable_hyperparams step
        ∧ (n ∉ dataflow (self w) → step' = step).
Proof.
  assert (Hrounds : ∀ (names : list string), (∀ m, m ∈ names → m ∈ dataflow (self w)) →
    let w' := mkWorld
      (mkMLPipeline (fit_rounds block_fit block_produce y (step_kwargs fp) names
                       (steps_dict (self w)) x).1 (dataflow (self w)))
      (objects w)
      (calls w ++ (fit_rounds block_fit block_produce y (step_kwargs fp) names
                     (steps_dict (self w)) x).2) in
    objects w' = objects w
    ∧ dataflow (self w') = dataflow (self w)
    ∧ keys (steps_dict (self w')) = keys (steps_dict (self w))
    ∧ ∀ (n : string) step,
        getitem (steps_dict (self w)) n = Some step →
        ∃ step',
          getitem (steps_dict (self w')) n = Some step'
          ∧ name step' = name step
          ∧ fixed_hyperparams step' = fixed_hyperparams step
          ∧ tunable_hyperparams step' = tunable_hyperparams step
          ∧ (n ∉ dataflow (self w) → step' = step)).
  { intros names Hnames. simpl. split; [done|]. split; [done|].
    split; [apply keys_fit_rounds_eq|]. intros n step Hstep.
    pose proof (getitem_fit_rounds y (step_kwargs fp) names (steps_dict (self w)) x n)
      as Hget.
    rewrite Hstep in Hget.
    destruct (getitem (fit_rounds _ _ _ _ _ _ _).1 n) as [step'|]; [|done].
    destruct Hget as (Hname & Hfixed & Htunable & Hsame).
    exists step'. split_and!; try done. intros Hn. apply Hsame.
    intros Hin. by apply Hn, Hnames. }
  destruct (decide (Forall (λ k : string * string, k.1 ∈ dataflow (self w)) (keys fp)))
    as [Hfp|Hfp].
  - rewrite Forall_forall in Hfp.
    destruct (first_failure (λ m, m ∈ keys (steps_dict (self w))) (dataflow (self w)))
      as [Hall|(pre & n & post & Hdf & Hpre & Hn)].
    + rewrite Forall_forall in Hall. rewrite fit_all_steps by done.
      by apply Hrounds.
    + rewrite Forall_forall in Hpre.
      rewrite (fit_missing_step w x y fp pre post n) by done.
      apply Hrounds. intros m Hm. rewrite Hdf. apply elem_of_app. by left.
  - apply not_Forall_Exists in Hfp; [|apply _]. apply Exists_exists in Hfp.
    destruct (fit_param_dict_raises fp w) as (n & q & _ & _ & Hrun).
    { destruct Hfp as (k & Hk & Hbad). by exists k. }
    unfold fit. erewrite bind_Raise; [|exact Hrun]. simpl.
    split_and!; try done. intros n' step Hstep. by exists step.
Qed.

(** ** get_fixed_hyperparams and get_tunable_hyperparams, read *)

Lemma wf_collect_fixed (ss : list Block) (acc : dict (string * string) Value) :
  wf acc → wf (collect_fixed ss acc).
Proof.
  unfold collect_fixed. revert acc. induction ss as [|step ss IH]; intros acc Hacc;
    simpl; [done|].
  apply IH. generalize (keys (fixed_hyperparams step)). intros l.
  revert acc Hacc. induction l as [|h l IHl]; intros acc Hacc; simpl; [done|].
  apply IHl. destruct (getitem (fixed_hyperparams step) h); [|done].
  by apply wf_setitem.
Qed.

(** X5: [get_fixed_hyperparams] changes nothing and returns a dictionary
    that has, under [(s, h)], what the step named [s] has as its fixed
    hyperparameter [h], and nothing under the other keys.  [steps_dict] is
    keyed by the names of its steps. *)
Theorem get_fixed_hyperparams_lookup w :
  pipeline_ok (self w) →
  ∃ d,
    get_fixed_hyperparams w = (w, Return d)
    ∧ wf d
    ∧ ∀ s h : string,
        getitem d (s, h) =
        match getitem (steps_dict (self w)) s with
        | Some step => getitem (fixed_hyperparams step) h
        | None => None
        end.
Proof.
  intros [Hwf Hok].
  exists (collect_fixed (values (steps_dict (self w))) []).
  split; [apply get_fixed_hyperparams_eq|]. split.
  { apply wf_collect_fixed. constructor. }
  intros s h. rewrite getitem_collect_fixed; [|done|].
  - destruct (getitem (steps_dict (self w)) s) as [step|]; [|done].
    by destruct (getitem (fixed_hyperparams step) h).
  - eapply Forall_impl; [exact Hok|]. by intros ? (? & _).
Qed.

Lemma all_tunable_cons (n : string) step (d : dict string Block) (df df' : list string) :
  all_tunable (mkMLPipeline ((n, step) :: d) df) =
  values (tunable_hyperparams step) ++ all_tunable (mkMLPipeline d df').
Proof.
  unfold all_tunable. simpl.
  generalize (values (tunable_hyperparams step)). intros l0.
  assert (Hgen : ∀ (ss : list Block) (a b : list ref),
    foldl (λ acc step, acc ++ values (tunable_hyperparams step)) (a ++ b) ss =
    a ++ foldl (λ acc step, acc ++ values (tunable_hyperparams step)) b ss).
  { induction ss as [|s ss IH]; intros a b; simpl; [done|].
    by rewrite <-(assoc_L (++)), IH. }
  rewrite <-(Hgen (values d) l0 []). by rewrite app_nil_r.
Qed.

Lemma all_tunable_step_names σ (d : dict string Block) (df : list string) r :
  hyperparams_ok σ (mkMLPipeline d df) →
  r ∈ all_tunable (mkMLPipeline d df) → step_name (σ r) ∈ keys d.
Proof.
  unfold hyperparams_ok. simpl.
  intros Hhp (n & step & q & Hstep & Hr)%elem_of_all_tunable. simpl in *.
  rewrite Forall_forall in Hhp. specialize (Hhp _ Hstep). simpl in Hhp.
  rewrite Forall_forall in Hhp. destruct (Hhp _ Hr) as [Hsn _]. simpl in Hsn.
  rewrite Hsn. apply list_elem_of_fmap. by exists (n, step).
Qed.

Lemma all_tunable_pairs_NoDup σ (d : dict string Block) (df : list string) :
  pipeline_ok (mkMLPipeline d df) →
  hyperparams_ok σ (mkMLPipeline d df) →
  NoDup ((λ r, (step_name (σ r), param_name (σ r))) <$> all_tunable (mkMLPipeline d df)).
Proof.
  unfold pipeline_ok, hyperparams_ok, wf. simpl. intros [Hwf Hok] Hhp.
  induction d as [|[n step] d IH]; [constructor|].
  apply NoDup_cons in Hwf as [Hn Hwf].
  apply Forall_cons in Hok as [(_ & _ & Hwft) Hok].
  apply Forall_cons in Hhp as [Hslots Hhp]. simpl in *.
  rewrite (all_tunable_cons n step d df df), fmap_app.
  apply NoDup_app. split; [|split].
  - assert (Heq : (λ r, (step_name (σ r), param_name (σ r)))
                    <$> values (tunable_hyperparams step)
                  = (λ q, (n, q)) <$> keys (tunable_hyperparams step)).
    { unfold values, keys. rewrite <-!list_fmap_compose.
      apply Forall_fmap_ext_1. eapply Forall_impl; [exact Hslots|].
      intros [q r] [Hsn Hpn]. simpl in *. congruence. }
    rewrite Heq. apply NoDup_fmap_2; [|exact Hwft]. by intros ?? [=].
  - intros pair (r & -> & Hr)%list_elem_of_fmap (r' & Heq & Hr')%list_elem_of_fmap.
    apply elem_of_values in Hr as [q Hr].
    rewrite Forall_forall in Hslots. destruct (Hslots _ Hr) as [Hsn _].
    simpl in Hsn. apply Hn.
    injection Heq as Hsame _. rewrite <-Hsn, Hsame.
    by apply (all_tunable_step_names σ d df).
  - by apply IH.
Qed.

(** X6: under the invariants of the data model, the hyperparameters that
    [get_tunable_hyperparams] returns are pairwise different objects with
    pairwise different (step name, parameter name) pairs, and they are the
    hyperparameters that the steps hold. *)
Theorem get_tunable_hyperparams_are_distinct w :
  pipeline_ok (self w) →
  hyperparams_ok (objects w) (self w) →
  ∃ hps,
    get_tunable_hyperparams w = (w, Return hps)
    ∧ (∀ r, r ∈ hps ↔ held_by (steps_dict (self w)) r)
    ∧ NoDup ((λ r, (step_name (objects w r), param_name (objects w r))) <$> hps)
    ∧ NoDup hps.
Proof.
  intros Hok Hhp. exists (all_tunable (self w)).
  split; [done|]. split; [apply elem_of_all_tunable|].
  assert (Hpairs : NoDup ((λ r, (step_name (objects w r), param_name (objects w r)))
                            <$> all_tunable (self w))).
  { destruct w as [[d df] σ cs]. by apply all_tunable_pairs_NoDup. }
  split; [exact Hpairs|]. by apply NoDup_fmap_1 in Hpairs.
Qed.

(** ** update_fixed_hyperparams, when every step is known *)

Lemma fixed_rounds_step fh (l : list (string * string))
    (steps : dict string Block) (n : string) step :
  (∀ k, k ∈ l → k ∈ keys fh) →
  getitem steps n = Some step →
  ∃ step',
    getitem (foldl (fixed_round block_update_model fh) steps l) n = Some step'
    ∧ name step' = name step
    ∧ tunable_hyperparams step' = tunable_hyperparams step
    ∧ (∀ h : string,
         getitem (fixed_hyperparams step') h =
         if decide ((n, h) ∈ l) then getitem fh (n, h)
         else getitem (fixed_hyperparams step) h)
    ∧ (n ∉ l.*1 → step' = step).
Proof.
  revert steps step. induction l as [|[m q] l IH]; intros steps step Hl Hstep.
  { exists step. split_and!; try done. }
  assert (Hk : (m, q) ∈ keys fh) by (apply Hl; left).
  apply getitem_is_Some in Hk as [v Hv].
  assert (Hl' : ∀ k, k ∈ l → k ∈ keys fh) by (intros k Hk; apply Hl; by right).
  cbn [foldl]. unfold fixed_round at 2. cbn [fst snd]. rewrite Hv.
  destruct (decide (m = n)) as [->|Hne].
  - rewrite Hstep.
    destruct (IH (setitem steps n (with_fixed_hyperparam block_update_model step q v))
                (with_fixed_hyperparam block_update_model step q v) Hl')
      as (step' & Hget & Hname & Htun & Hfixed & _).
    { apply getitem_setitem_eq. }
    exists step'. split_and!; try done.
    + intros h. rewrite Hfixed. simpl. rewrite getitem_setitem.
      destruct (decide ((n, h) ∈ l)) as [Hin|Hin].
      * rewrite decide_True; [done|by right].
      * destruct (decide (q = h)) as [->|Hq].
        -- rewrite decide_True; [done|left].
        -- rewrite decide_False; [done|]. rewrite not_elem_of_cons.
           split; [congruence|done].
    + intros Hn. exfalso. apply Hn. rewrite fmap_cons. left.
  - destruct (IH (match getitem steps m with
                  | Some step0 =>
                      setitem steps m (with_fixed_hyperparam block_update_model step0 q v)
                  | None => steps
                  end) step Hl') as (step' & Hget & Hname & Htun & Hfixed & Hsame).
    { destruct (getitem steps m); [|done]. by rewrite getitem_setitem_ne. }
    exists step'. split_and!; try done.
    + intros h. rewrite Hfixed.
      destruct (decide ((n, h) ∈ l)) as [Hin|Hin].
      * rewrite decide_True; [done|by right].
      * rewrite decide_False; [done|]. rewrite not_elem_of_cons.
        split; [congruence|done].
    + intros Hn. apply Hsame. rewrite fmap_cons, not_elem_of_cons in Hn. tauto.
Qed.

(** X7: when every key of the mapping names a step of the pipeline,
    [update_fixed_hyperparams] returns normally.  Every step then has, for
    each entry [(s, h): v] with its name, [v] as its fixed hyperparameter
    [h], and its other fixed hyperparameters, its name and its tunable
    hyperparameters as before; a step that no key names is untouched, model
    included; no hyperparameter object changes. *)
Theorem update_fixed_applies_every_entry w fh :
  Forall (λ k, k.1 ∈ keys (steps_dict (self w))) (keys fh) →
  ∃ w',
    update_fixed_hyperparams block_update_model fh w = (w', Return tt)
    ∧ objects w' = objects w
    ∧ calls w' = calls w
    ∧ dataflow (self w') = dataflow (self w)
    ∧ ∀ (n : string) step,
        getitem (steps_dict (self w)) n = Some step →
        ∃ step',
          getitem (steps_dict (self w')) n = Some step'
          ∧ name step' = name step
          ∧ tunable_hyperparams step' = tunable_hyperparams step
          ∧ (∀ h : string,
               getitem (fixed_hyperparams step') h =
               match getitem fh (n, h) with
               | Some v => Some v
               | None => getitem (fixed_hyperparams step) h
               end)
          ∧ (n ∉ (keys fh).*1 → step' = step).
Proof.
  intros Hfh. rewrite Forall_forall in Hfh.
  exists (set_steps w (foldl (fixed_round block_update_model fh)
                         (steps_dict (self w)) (keys fh))).
  split.
  { unfold update_fixed_hyperparams. apply update_fixed_loop_ok.
    intros k Hk. split; [done|by apply Hfh]. }
  split; [done|]. split; [done|]. split; [done|].
  intros n step Hstep.
  destruct (fixed_rounds_step fh (keys fh) (steps_dict (self w)) n step)
    as (step' & Hget & Hname & Htun & Hfixed & Hsame); [done..|].
  exists step'. split_and!; try done. intros h. rewrite Hfixed.
  case_decide as Hin.
  - apply getitem_is_Some in Hin as [v Hv]. by rewrite Hv.
  - apply getitem_None in Hin. by rewrite Hin.
Qed.

(** ** The invariants, kept *)

Lemma pipeline_inv_steps σ (p : Pipeline) :
  pipeline_inv σ p ↔ steps_inv σ (steps_dict p) ∧ dataflow_ok p.
Proof.
  unfold pipeline_inv, pipeline_ok, hyperparams_ok, steps_inv, step_ok.
  split.
  - intros ((Hwf & Hok) & Hhp & Hdf). split; [|done]. split; [done|].
    apply Forall_forall. intros [n step] Hin.
    rewrite Forall_forall in Hok. rewrite Forall_forall in Hhp.
    destruct (Hok _ Hin) as (Hname & Hf & Ht). specialize (Hhp _ Hin).
    simpl in *. split_and!; try done. by rewrite Hname.
  - intros ((Hwf & Hok) & Hdf). rewrite Forall_forall in Hok. split_and!; try done.
    + apply Forall_forall. intros [n step] Hin.
      destruct (Hok _ Hin) as (Hname & Hf & Ht & _). by simpl in *.
    + apply Forall_forall. intros [n step] Hin.
      destruct (Hok _ Hin) as (Hname & _ & _ & Hslots). simpl in *.
      by rewrite <-Hname.
Qed.

Lemma steps_inv_lookup σ (steps : dict string Block) (k : string) step :
  steps_inv σ steps → getitem steps k = Some step → name step = k ∧ step_ok σ step.
Proof.
  intros [_ Hok] Hstep%getitem_Some_elem. rewrite Forall_forall in Hok.
  apply (Hok _ Hstep).
Qed.

Lemma steps_inv_setitem σ (steps : dict string Block) (k : string) step' :
  steps_inv σ steps → name step' = k → step_ok σ step' →
  steps_inv σ (setitem steps k step').
Proof.
  intros [Hwf Hok] Hname Hstep. split; [by apply wf_setitem|].
  by apply Forall_setitem.
Qed.

Lemma steps_inv_fixed_round σ fh (steps : dict string Block) (k : string * string) :
  steps_inv σ steps → steps_inv σ (fixed_round block_update_model fh steps k).
Proof.
  intros Hinv. unfold fixed_round.
  destruct (getitem steps k.1) as [step|] eqn:Hstep; [|done].
  destruct (getitem fh k) as [v|]; [|done].
  destruct (steps_inv_lookup _ _ _ _ Hinv Hstep) as (Hname & Hf & Ht & Hslots).
  apply steps_inv_setitem; [done..|]. split_and!; try done.
  by apply wf_setitem.
Qed.

Lemma steps_inv_tunable_round σ (steps : dict string Block) r :
  steps_inv σ steps → steps_inv σ (tunable_round σ steps r).
Proof.
  intros Hinv. unfold tunable_round.
  destruct (getitem steps (step_name (σ r))) as [step|] eqn:Hstep; [|done].
  destruct (steps_inv_lookup _ _ _ _ Hinv Hstep) as (Hname & Hf & Ht & Hslots).
  apply steps_inv_setitem; [done..|]. split_and!; simpl; try done.
  - by apply wf_setitem.
  - by apply Forall_setitem.
Qed.

Lemma steps_inv_foldl {X} σ (f : dict string Block → X → dict string Block)
    (l : list X) (steps : dict string Block) :
  (∀ d a, steps_inv σ d → steps_inv σ (f d a)) →
  steps_inv σ steps → steps_inv σ (foldl f steps l).
Proof.
  intros Hf. revert steps. induction l as [|a l IH]; intros steps Hinv; simpl; auto.
Qed.

Lemma steps_inv_rebuild σ (steps : dict string Block) :
  steps_inv σ steps → steps_inv σ (map_values (rebuild class_of construct) steps).
Proof.
  intros [Hwf Hok]. split.
  - unfold wf. by rewrite keys_map_values.
  - unfold map_values. apply Forall_fmap. eapply Forall_impl; [exact Hok|].
    by intros [n step].
Qed.

Lemma steps_inv_fit_rounds σ y (kwargs : string → dict string Value)
    (names : list string) (steps : dict string Block) x :
  steps_inv σ steps →
  steps_inv σ (fit_rounds block_fit block_produce y kwargs names steps x).1.
Proof.
  revert steps x. induction names as [|n names IH]; intros steps x Hinv; simpl; [done|].
  destruct (getitem steps n) as [step|] eqn:Hstep; [|done]. simpl.
  apply IH. destruct (steps_inv_lookup _ _ _ _ Hinv Hstep) as (Hname & Hok).
  by apply steps_inv_setitem.
Qed.

Lemma steps_inv_objects σ σ' (steps : dict string Block) :
  (∀ r, step_name (σ' r) = step_name (σ r) ∧ param_name (σ' r) = param_name (σ r)) →
  steps_inv σ steps → steps_inv σ' steps.
Proof.
  intros Hsame [Hwf Hok]. split; [done|].
  eapply Forall_impl; [exact Hok|]. intros [n step] (Hname & Hf & Ht & Hslots).
  simpl in *. split; [done|]. split; [done|]. split; [done|].
  eapply Forall_impl; [exact Hslots|].
  intros [q r]. simpl. destruct (Hsame r) as [Hs Hp]. by rewrite Hs, Hp.
Qed.

Lemma dataflow_ok_keys (d d' : dict string Block) (df : list string) :
  (∀ n, n ∈ keys d → n ∈ keys d') →
  dataflow_ok (mkMLPipeline d df) → dataflow_ok (mkMLPipeline d' df).
Proof.
  unfold dataflow_ok. simpl. intros Hkeys Hdf.
  eapply Forall_impl; [exact Hdf|]. auto.
Qed.

Lemma pipeline_inv_set_steps σ w (d : dict string Block) :
  pipeline_inv σ (self w) →
  steps_inv σ d →
  (∀ n, n ∈ keys (steps_dict (self w)) → n ∈ keys d) →
  pipeline_inv σ (self (set_steps w d)).
Proof.
  intros [_ Hdf]%pipeline_inv_steps Hinv Hkeys. apply pipeline_inv_steps.
  split; [done|]. simpl. destruct w as [[d0 df] ? ?]. simpl in *.
  by apply (dataflow_ok_keys d0).
Qed.

(** However [update_fixed_hyperparams] ends, the entries of a prefix of the
    mapping have been applied. *)
Lemma update_fixed_prefix fh w :
  ∃ pre post o,
    keys fh = pre ++ post ∧
    update_fixed_hyperparams block_update_model fh w =
    (set_steps w (foldl (fixed_round block_update_model fh) (steps_dict (self w)) pre), o).
Proof.
  unfold update_fixed_hyperparams.
  destruct (first_failure (λ k : string * string, k.1 ∈ keys (steps_dict (self w)))
              (keys fh)) as [Hall|(pre & [n q] & post & Hkeys & Hpre & Hn)].
  - exists (keys fh), [], (Return tt). rewrite app_nil_r. split; [done|].
    apply update_fixed_loop_ok. rewrite Forall_forall in Hall. intros k Hk.
    split; [done|by apply Hall].
  - exists pre, ((n, q) :: post), (Raise (KeyError (KStr n))). split; [done|].
    rewrite Hkeys. apply update_fixed_loop_raises; [|done].
    rewrite Forall_forall in Hpre. intros k Hk. split; [|by apply Hpre].
    rewrite Hkeys. apply elem_of_app. by left.
Qed.

(** X8: the invariants of the data model outlast
    [update_fixed_hyperparams], however it ends, and so do the
    hyperparameter objects and the tunable hyperparameters of every step. *)
Theorem update_fixed_keeps_the_invariants w fh :
  pipeline_inv (objects w) (self w) →
  let w' := (update_fixed_hyperparams block_update_model fh w).1 in
  pipeline_inv (objects w') (self w')
  ∧ objects w' = objects w
  ∧ ∀ (n : string) step,
      getitem (steps_dict (self w)) n = Some step →
      ∃ step',
        getitem (steps_dict (self w')) n = Some step'
        ∧ tunable_hyperparams step' = tunable_hyperparams step.
Proof.
  intros Hinv.
  destruct (update_fixed_prefix fh w) as (pre & post & o & Hkeys & Hrun).
  rewrite Hrun. simpl. split; [|split; [done|]].
  - apply (pipeline_inv_set_steps (objects w) w); [done| |].
    + apply steps_inv_foldl; [intros d a; apply steps_inv_fixed_round|].
      by apply pipeline_inv_steps in Hinv as [? _].
    + intros n. by rewrite keys_fixed_rounds.
  - intros n step Hstep.
    destruct (fixed_rounds_step fh pre (steps_dict (self w)) n step)
      as (step' & Hget & _ & Htun & _); [|done|by exists step'].
    intros k Hk. rewrite Hkeys. apply elem_of_app. by left.
Qed.

(** X10: the invariants of the data model outlast
    [update_tunable_hyperparams], whatever hyperparameters it is given and
    however it ends: a hyperparameter is stored in the step it names, under
    the name it has.  No hyperparameter object changes. *)
Theorem update_tunable_keeps_the_invariants w (hps : list ref) :
  pipeline_inv (objects w) (self w) →
  let w' := (update_tunable_hyperparams class_of construct hps w).1 in
  pipeline_inv (objects w') (self w') ∧ objects w' = objects w.
Proof.
  intros Hinv.
  assert (Hsteps : steps_inv (objects w) (steps_dict (self w))).
  { by apply pipeline_inv_steps in Hinv as [? _]. }
  destruct (update_tunable_loop_prefix hps w)
    as (pre & post & o & -> & Hrun & Hok & Hko).
  assert (Hpre : steps_inv (objects w)
                   (foldl (tunable_round (objects w)) (steps_dict (self w)) pre)).
  { apply steps_inv_foldl; [intros d a; apply steps_inv_tunable_round|done]. }
  unfold update_tunable_hyperparams. destruct post as [|r post].
  - rewrite (Hok eq_refl) in Hrun. erewrite bind_Return; [|exact Hrun].
    simpl. split; [|done].
    apply (pipeline_inv_set_steps (objects w) w); [done| |].
    + by apply steps_inv_rebuild.
    + intros n. by rewrite keys_map_values, keys_tunable_rounds.
  - destruct Hko as [e ->]; [done|]. erewrite bind_Raise; [|exact Hrun].
    simpl. split; [|done].
    apply (pipeline_inv_set_steps (objects w) w); [done..|].
    intros n. by rewrite keys_tunable_rounds.
Qed.

(** Handing all the tunable hyperparameters of a pipeline back to it
    rebuilds the models and changes nothing else. *)
Lemma update_all_tunable w :
  pipeline_ok (self w) →
  hyperparams_ok (objects w) (self w) →
  update_tunable_hyperparams class_of construct (all_tunable (self w)) w =
  (set_steps w (map_values (rebuild class_of construct) (steps_dict (self w))),
   Return tt).
Proof.
  intros Hok Hhp.
  assert (Hfound : ∀ r, r ∈ all_tunable (self w) →
            ∃ step, getitem (steps_dict (self w)) (step_name (objects w r)) = Some step
                    ∧ getitem (tunable_hyperparams step) (param_name (objects w r)) = Some r).
  { intros r Hr. apply held_by_lookup; [done..|]. by apply elem_of_all_tunable. }
  assert (Hid : foldl (tunable_round (objects w)) (steps_dict (self w))
                  (all_tunable (self w)) = steps_dict (self w)).
  { apply foldl_id. intros r Hr. destruct (Hfound r Hr) as (step & Hstep & Hq).
    by apply (tunable_round_id _ _ _ step). }
  pose proof (update_tunable_loop_ok (all_tunable (self w)) w) as Hloop.
  rewrite Hid, set_steps_id in Hloop.
  unfold update_tunable_hyperparams.
  erewrite bind_Return; [done|]. apply Hloop. intros r Hr.
  destruct (Hfound r Hr) as (step & Hstep & _).
  apply getitem_is_Some. by exists step.
Qed.

(** X11: under the invariants of the data model [set_from_hyperparam_dict]
    returns normally, whatever names the mapping has: a name that no tunable
    hyperparameter has is passed over.  The hyperparameters with a name of
    the mapping get its value, the others keep theirs; every step keeps its
    name and its two hyperparameter mappings and has its model rebuilt from
    its tunable hyperparameters; the invariants hold afterwards. *)
Theorem set_from_hyperparam_dict_returns w (hd : dict string Value) :
  pipeline_inv (objects w) (self w) →
  ∃ w',
    set_from_hyperparam_dict class_of construct hd w = (w', Return tt)
    ∧ (∀ r, objects w' r =
            if decide (r ∈ all_tunable (self w))
            then assigned hd (objects w r) else objects w r)
    ∧ steps_dict (self w') =
      map_values (rebuild class_of construct) (steps_dict (self w))
    ∧ dataflow (self w') = dataflow (self w)
    ∧ pipeline_inv (objects w') (self w').
Proof.
  intros Hinv.
  destruct (assign_loop hd (all_tunable (self w)) w)
    as (w1 & Hrun & Hself & Hcalls & Hobj).
  assert (Hnames : ∀ r, step_name (objects w1 r) = step_name (objects w r)
                        ∧ param_name (objects w1 r) = param_name (objects w r)).
  { intros r. rewrite Hobj. case_decide; [|done]. unfold assigned.
    by destruct (getitem hd (param_name (objects w r))). }
  assert (Hinv1 : pipeline_inv (objects w1) (self w1)).
  { rewrite Hself. apply pipeline_inv_steps in Hinv as [Hsteps Hdf].
    apply pipeline_inv_steps. split; [|done]. by apply (steps_inv_objects (objects w)). }
  pose proof Hinv1 as (Hok1 & Hhp1 & Hdf1).
  exists (set_steps w1 (map_values (rebuild class_of construct) (steps_dict (self w1)))).
  split.
  { unfold set_from_hyperparam_dict.
    rewrite (bind_Return _ _ w w (all_tunable (self w))) by done.
    erewrite bind_Return; [|exact Hrun]. rewrite <-Hself. by apply update_all_tunable. }
  split.
  { intros r. simpl. apply Hobj. }
  split; [simpl; by rewrite Hself|]. split; [simpl; by rewrite Hself|].
  apply (pipeline_inv_set_steps (objects w1) w1); [done| |].
  - apply steps_inv_rebuild. by apply pipeline_inv_steps in Hinv1 as [? _].
  - intros n. by rewrite keys_map_values.
Qed.

(** X12: the invariants of the data model outlast [fit], however it
    ends. *)
Theorem fit_keeps_the_invariants w x y fp :
  pipeline_inv (objects w) (self w) →
  let w' := (fit block_fit block_produce x y fp w).1 in
  pipeline_inv (objects w') (self w').
Proof.
  intros Hinv.
  assert (Hrounds : ∀ names : list string,
    pipeline_inv (objects w)
      (mkMLPipeline (fit_rounds block_fit block_produce y (step_kwargs fp) names
                       (steps_dict (self w)) x).1 (dataflow (self w)))).
  { intros names. apply pipeline_inv_steps in Hinv as [Hsteps Hdf].
    apply pipeline_inv_steps. split; simpl.
    - by apply steps_inv_fit_rounds.
    - destruct w as [[d df] ? ?]. simpl in *. apply (dataflow_ok_keys d); [|done].
      intros n. by rewrite keys_fit_rounds_eq. }
  destruct (decide (Forall (λ k : string * string, k.1 ∈ dataflow (self w)) (keys fp)))
    as [Hfp|Hfp].
  - rewrite Forall_forall in Hfp.
    destruct (first_failure (λ m, m ∈ keys (steps_dict (self w))) (dataflow (self w)))
      as [Hall|(pre & n & post & Hdf & Hpre & Hn)].
    + rewrite Forall_forall in Hall. rewrite fit_all_steps by done.
      simpl. apply Hrounds.
    + rewrite Forall_forall in Hpre.
      rewrite (fit_missing_step w x y fp pre post n) by done.
      simpl. apply Hrounds.
  - apply not_Forall_Exists in Hfp; [|apply _]. apply Exists_exists in Hfp.
    destruct (fit_param_dict_raises fp w) as (n & q & _ & _ & Hrun).
    { destruct Hfp as (k & Hk & Hbad). by exists k. }
    unfold fit. by erewrite bind_Raise; [|exact Hrun].
Qed.

(** ** __init__ and the invariants *)

(** X13: the constructor makes the invariants of the data model hold,
    given steps that are well formed each by itself: with the default
    [dataflow], and with a [dataflow] made of names of the steps.  Steps
    that share a name do no harm. *)
Theorem init_makes_the_invariants_hold σ (steps : list Block) (df : option (list string)) :
  Forall (step_ok σ) steps →
  match df with
  | Some l => Forall (λ n, n ∈ name <$> steps) l
  | None => True
  end →
  pipeline_inv σ (init steps df).
Proof.
  intros Hsteps Hdf. apply pipeline_inv_steps. split.
  - split; [apply wf_of_items|]. apply Forall_forall. intros [n step] Hin.
    simpl in *. apply elem_of_items, list_elem_of_fmap in Hin as (s & Heq & Hs).
    inversion Heq; subst. rewrite Forall_forall in Hsteps. split; [done|by apply Hsteps].
  - unfold dataflow_ok. simpl.
    assert (Hkeys : ∀ n, n ∈ name <$> steps →
              n ∈ keys (of_items ((λ step : Block, (name step, step)) <$> steps))).
    { intros n Hn. rewrite elem_keys_of_items, <-list_fmap_compose. exact Hn. }
    destruct df as [l|].
    + eapply Forall_impl; [exact Hdf|]. exact Hkeys.
    + apply Forall_forall. exact Hkeys.
Qed.

(** X14: on a pipeline built with the default [dataflow], whatever the
    steps, [predict] and [fit] find every step they look for: [predict]
    returns the fold of [produce] over the names of the steps, and [fit]
    without keyword arguments returns normally. *)
Theorem default_dataflow_finds_every_step σ (steps : list Block) (cs : list Call) x y :
  let w := mkWorld (init steps None) σ cs in
  (predict block_produce x w).2 =
    Return (foldl (λ data n, produce_of block_produce (self w) n data) x
              (name <$> steps))
  ∧ (fit block_fit block_produce x y [] w).2 = Return tt.
Proof.
  intros w.
  assert (Hdf : ∀ m, m ∈ dataflow (self w) → m ∈ keys (steps_dict (self w))).
  { intros n Hn. simpl in *. by rewrite elem_keys_of_items, <-list_fmap_compose. }
  split.
  - unfold predict, bind at 1, gets. by rewrite predict_loop.
  - rewrite fit_all_steps; [done| |done]. intros k Hk. by apply elem_of_nil in Hk.
Qed.

(** ** to_dict, when the names of the steps have no underscore *)

Lemma format_inj (s s' q q' : string) :
  no_underscore s = true → no_underscore s' = true →
  format s q = format s' q' → s = s' ∧ q = q'.
Proof.
  unfold format. revert s'. induction s as [|c s IH]; intros [|c' s']; simpl.
  - intros _ _ Heq. by inversion Heq.
  - intros _ Hs' Heq. inversion Heq; subst. by simpl in Hs'.
  - intros Hs _ Heq. inversion Heq; subst. by simpl in Hs.
  - intros [_ Hs]%andb_prop [_ Hs']%andb_prop Heq. inversion Heq; subst.
    destruct (IH s' Hs Hs') as [-> ->]; done.
Qed.

(** X22: under the invariants of the data model, and with names of steps
    that have no underscore, [to_dict] has one entry for each tunable
    hyperparameter, in the order of [get_tunable_hyperparams]: no two
    hyperparameters share a key, and every hyperparameter finds its own
    value under its key. *)
Theorem to_dict_has_every_hyperparameter w :
  pipeline_ok (self w) →
  hyperparams_ok (objects w) (self w) →
  Forall (λ n, no_underscore n = true) (keys (steps_dict (self w))) →
  let entries := (λ r, (dict_key (objects w) r, value (objects w r)))
                   <$> all_tunable (self w) in
  to_dict w = (w, Return entries)
  ∧ NoDup (keys entries)
  ∧ ∀ r, r ∈ all_tunable (self w) →
      getitem entries (dict_key (objects w) r) = Some (value (objects w r)).
Proof.
  intros Hok Hhp Hnames entries.
  assert (Hkeys : NoDup (keys entries)).
  { assert (Hpairs : NoDup ((λ r, (step_name (objects w r), param_name (objects w r)))
                              <$> all_tunable (self w))).
    { destruct w as [[d df] σ cs]. by apply all_tunable_pairs_NoDup. }
    assert (Heq : keys entries
                  = (λ pair : string * string, format pair.1 pair.2)
                      <$> ((λ r, (step_name (objects w r), param_name (objects w r)))
                             <$> all_tunable (self w))).
    { unfold keys, entries. by rewrite <-!list_fmap_compose. }
    rewrite Heq. apply NoDup_fmap_2_strong; [|exact Hpairs].
    rewrite Forall_forall in Hnames.
    assert (Hstep : ∀ pair : string * string,
              pair ∈ (λ r, (step_name (objects w r), param_name (objects w r)))
                       <$> all_tunable (self w) →
              no_underscore pair.1 = true).
    { intros pair (r & -> & Hr)%list_elem_of_fmap. simpl. apply Hnames.
      destruct w as [[d df] σ cs]. by apply (all_tunable_step_names σ d df). }
    intros [s q] [s' q'] Hin Hin' Hsame. simpl in Hsame.
    apply format_inj in Hsame as [-> ->]; [done|..].
    - by apply (Hstep (s, q)).
    - by apply (Hstep (s', q')). }
  split; [|split; [exact Hkeys|]].
  - unfold to_dict. rewrite (bind_Return _ _ w w (all_tunable (self w))) by done.
    unfold bind, gets, ret. simpl. f_equal. f_equal. by apply of_items_NoDup.
  - intros r Hr. apply elem_getitem; [exact Hkeys|].
    apply list_elem_of_fmap. by exists r.
Qed.

End more_pipeline_facts.

(** * Building a pipeline from JSON metadata *)

Section loading_facts.
Import Loading.
Local Open Scope load_scope.

Context {E Parser Value Model : Type}.
Context (MLJsonParser KerasJsonParser : json → result E Parser).
Context (build_mlblock : Parser → result E (@MLBlock Value Model)).
Context (isfile : string → bool).
Context (load : string → result E json).
Context (path_join : string → string → string).
Context (current_dir : string).

Lemma gather_all {X A} (f : X → result E A) (l : list X) (out acc : list A) :
  Forall2 (λ x a, f x = Done a) l out →
  gather f l acc = Done (acc ++ out).
Proof.
  intros Hall. revert acc. induction Hall as [|x a l out Hx _ IH]; intros acc; simpl.
  - by rewrite app_nil_r.
  - rewrite Hx. simpl. by rewrite IH, <-(assoc_L (++)).
Qed.

Lemma gather_first_failure {X A} (f : X → result E A)
    (pre post : list X) (x : X) (out acc : list A) e :
  Forall2 (λ x a, f x = Done a) pre out →
  f x = Failed e →
  gather f (pre ++ x :: post) acc = Failed e.
Proof.
  intros Hall Hx. revert acc. induction Hall as [|x0 a l out Hx0 _ IH]; intros acc; simpl.
  - by rewrite Hx.
  - rewrite Hx0. simpl. apply IH.
Qed.

Lemma prefix_app (p s : string) :
  String.prefix p s = true ↔ ∃ rest, s = p +:+ rest.
Proof.
  revert s. induction p as [|c p IH]; intros s.
  - destruct s; simpl; (split; [intros _; by eexists|done]).
  - destruct s as [|c' s]; simpl.
    + split; [done|]. by intros [rest Hrest].
    + destruct (Ascii.ascii_dec c c') as [->|Hne].
      * rewrite IH. split; intros [rest Hrest]; exists rest; [by rewrite Hrest|].
        by inversion Hrest.
      * split; [done|]. intros [rest Hrest]. by inversion Hrest.
Qed.

(** X15: for a metadata object whose ["class"] is a string, [_get_parser]
    makes the Keras parser exactly when the string starts with [keras]
    (lower case, whatever follows), and otherwise returns the generic
    parser, which it has made first in both cases. *)
Theorem get_parser_goes_by_the_class_prefix (md : json) (members : dict string json)
    (s : string) (parser : Parser) :
  md = JObject members →
  getitem members "class" = Some (JString s) →
  MLJsonParser md = Done parser →
  ((∃ rest, s = "keras" +:+ rest) →
     get_parser MLJsonParser KerasJsonParser md = KerasJsonParser md)
  ∧ ((∀ rest, s ≠ "keras" +:+ rest) →
     get_parser MLJsonParser KerasJsonParser md = Done parser).
Proof.
  intros -> Hclass Hml. unfold get_parser. rewrite Hml.
  cbn [and_then subscript]. rewrite Hclass. cbn [and_then].
  unfold startswith. split.
  - intros Hkeras%prefix_app. by rewrite Hkeras.
  - intros Hnot. destruct (String.prefix "keras" s) eqn:Hp; [|done].
    apply prefix_app in Hp as [rest Hrest]. by destruct (Hnot rest).
Qed.

(** X16: [_get_parser] fails when the generic parser cannot be made from
    the metadata, whatever their ["class"]; on metadata that are no object
    it fails with a type error, on an object without ["class"] with a key
    error for ["class"], and on a ["class"] that is no string with an
    attribute error. *)
Theorem get_parser_failures (md : json) :
  (∀ e, MLJsonParser md = Failed e →
        get_parser MLJsonParser KerasJsonParser md = Failed e)
  ∧ (∀ parser, MLJsonParser md = Done parser →
       match md with
       | JObject members =>
           match getitem members "class" with
           | None => get_parser MLJsonParser KerasJsonParser md
                     = Failed (Key_error "class")
           | Some (JString _) => True
           | Some _ => get_parser MLJsonParser KerasJsonParser md
                       = Failed Attribute_error
           end
       | _ => get_parser MLJsonParser KerasJsonParser md = Failed Type_error
       end).
Proof.
  split.
  - intros e He. unfold get_parser. by rewrite He.
  - intros parser Hml. unfold get_parser. rewrite Hml. simpl.
    destruct md as [| | | | |members]; try done. simpl.
    destruct (getitem members "class") as [[]|]; done.
Qed.

(** X17: when every metadata object makes a step, [from_json_metadata]
    returns the pipeline that the constructor makes of these steps, in the
    order of the metadata, with the default [dataflow]: the names of the
    steps in that order, each of them a key of [steps_dict]. *)
Theorem from_json_metadata_builds_the_steps_in_order (mds : list json)
    (steps : list (@MLBlock Value Model)) :
  Forall2 (makes MLJsonParser KerasJsonParser build_mlblock) mds steps →
  ∃ p,
    from_json_metadata MLJsonParser KerasJsonParser build_mlblock mds = Done p
    ∧ p = init steps None
    ∧ dataflow p = name <$> steps
    ∧ dataflow_ok p.
Proof.
  intros Hall. exists (init steps None). split; [|split; [done|split; [done|]]].
  - unfold from_json_metadata. by rewrite (gather_all _ mds steps []).
  - unfold dataflow_ok. simpl. apply Forall_forall. intros n Hn.
    by rewrite elem_keys_of_items, <-list_fmap_compose.
Qed.

(** X18: [from_json_metadata] fails with the error of the first metadata
    object from which no step is made, and makes no pipeline, whatever
    comes after that object. *)
Theorem from_json_metadata_fails_at_the_first_bad_metadata
    (pre post : list json) (md : json) (steps : list (@MLBlock Value Model)) e :
  Forall2 (makes MLJsonParser KerasJsonParser build_mlblock) pre steps →
  (parser <- get_parser MLJsonParser KerasJsonParser md ;; build_mlblock parser)
    = Failed e →
  from_json_metadata MLJsonParser KerasJsonParser build_mlblock (pre ++ md :: post)
    = Failed e.
Proof.
  intros Hpre Hmd. unfold from_json_metadata.
  by rewrite (gather_first_failure _ pre post md steps [] e).
Qed.

(** X19: [from_json_filepaths] loads the files, in the order of the list,
    before it makes a parser: when a file cannot be loaded it fails with the
    error of the first such file, whatever the parsers would have made of
    the files before it. *)
Theorem from_json_filepaths_loads_before_it_parses
    (pre post : list string) (path : string) (mds : list json) e :
  Forall2 (λ p md, load p = Done md) pre mds →
  load path = Failed e →
  from_json_filepaths MLJsonParser KerasJsonParser build_mlblock load
    (pre ++ path :: post)
  = Failed e.
Proof.
  intros Hpre Hpath. unfold from_json_filepaths.
  by rewrite (gather_first_failure _ pre post path mds [] e).
Qed.

(** X20: when one of the names has no JSON file, [from_dm_json] fails with
    a [ValueError] whose message has the first such name, before it opens
    a file or makes a parser: no error of loading or parsing comes first. *)
Theorem from_dm_json_names_the_first_missing_file
    (pre post : list string) (json_name : string) :
  Forall (λ n, isfile (json_path path_join current_dir n) = true) pre →
  isfile (json_path path_join current_dir json_name) = false →
  from_dm_json MLJsonParser KerasJsonParser build_mlblock isfile load
    path_join current_dir (pre ++ json_name :: post)
  = Failed (Value_error
      ("No JSON corresponding to the specified name (" +:+ json_name +:+ ") exists.")).
Proof.
  intros Hpre Hname. unfold from_dm_json.
  rewrite (gather_first_failure _ pre post json_name
             (json_path path_join current_dir <$> pre) []
             (Value_error (no_json_message json_name))); [done| |].
  - apply Forall2_fmap_r, Forall_Forall2_diag.
    eapply Forall_impl; [exact Hpre|]. intros n Hn. simpl. by rewrite Hn.
  - simpl. by rewrite Hname.
Qed.

(** X21: when every name has its JSON file, every file is loaded, and a
    step is made from what each file holds, [from_dm_json] returns the
    pipeline that the constructor makes of these steps, in the order of the
    names, with the default [dataflow]; [from_json_filepaths] does the same
    for the paths of the files. *)
Theorem from_dm_json_builds_the_pipeline (json_names : list string)
    (mds : list json) (steps : list (@MLBlock Value Model)) :
  Forall (λ n, isfile (json_path path_join current_dir n) = true) json_names →
  Forall2 (λ n md, load (json_path path_join current_dir n) = Done md) json_names mds →
  Forall2 (makes MLJsonParser KerasJsonParser build_mlblock) mds steps →
  from_dm_json MLJsonParser KerasJsonParser build_mlblock isfile load
    path_join current_dir json_names
  = Done (init steps None)
  ∧ from_json_filepaths MLJsonParser KerasJsonParser build_mlblock load
      (json_path path_join current_dir <$> json_names)
    = Done (init steps None).
Proof.
  intros Hfiles Hload Hmake.
  assert (Hpaths : from_json_filepaths MLJsonParser KerasJsonParser build_mlblock load
                     (json_path path_join current_dir <$> json_names)
                   = Done (init steps None)).
  { unfold from_json_filepaths.
    rewrite (gather_all _ _ mds []) by (by apply Forall2_fmap_l).
    cbn [and_then app]. unfold from_json_metadata.
    by rewrite (gather_all _ mds steps []). }
  split; [|done]. unfold from_dm_json.
  rewrite (gather_all _ json_names (json_path path_join current_dir <$> json_names) []);
    [done|].
  apply Forall2_fmap_r, Forall_Forall2_diag.
  eapply Forall_impl; [exact Hfiles|]. intros n Hn. simpl. by rewrite Hn.
Qed.

End loading_facts.

(** * The theorems at work on concrete pipelines *)

(** A decidable proposition about concrete data is settled by evaluation. *)
Ltac by_evaluation := apply (bool_decide_unpack _); vm_compute; exact I.

Lemma two_steps_dataflow_ok : dataflow_ok (self Demo.two_steps).
Proof. unfold dataflow_ok. by_evaluation. Defined.

Lemma two_steps_pipeline_ok : pipeline_ok (self Demo.two_steps).
Proof. unfold pipeline_ok, wf. by_evaluation. Defined.

Lemma two_steps_hyperparams_ok :
  hyperparams_ok (objects Demo.two_steps) (self Demo.two_steps).
Proof. unfold hyperparams_ok. by_evaluation. Defined.

(** [predict 3] on the steps A ([x + 1]) and B ([x * 2]) calls the
    [produce] of A on 3, then the [produce] of B on 4, and returns 8. *)
Lemma predict_is_fold_of_produce_witness :
  dataflow_ok (self Demo.two_steps)
  ∧ predict Demo.produce 3%Z Demo.two_steps =
    (mkWorld (self Demo.two_steps) (objects Demo.two_steps)
       [CallProduce "A" 3%Z; CallProduce "B" 4%Z],
     Return 8%Z).
Proof.
  split; [exact two_steps_dataflow_ok|].
  exact (proj1 (predict_is_fold_of_produce Demo.produce Demo.two_steps 3%Z
                  two_steps_dataflow_ok)).
Defined.

(** [fit] on the steps A and B, with a keyword argument for B: A is fitted
    and produces on 3, B is fitted with its keyword argument and produces
    on 4; [predict 3] then returns 8. *)
Lemma fit_runs_the_steps_in_order_witness :
  dataflow_ok (self Demo.two_steps)
  ∧ Forall (λ k : string * string, k.1 ∈ dataflow (self Demo.two_steps))
      (keys [(("B", "epochs"), 5%Q)])
  ∧ ∃ w',
      fit Demo.fit Demo.produce 3%Z 0%Z [(("B", "epochs"), 5%Q)] Demo.two_steps
      = (w', Return tt)
      ∧ calls w' = [CallFit "A" 3%Z 0%Z []; CallProduce "A" 3%Z;
                    CallFit "B" 4%Z 0%Z [("epochs", 5%Q)]; CallProduce "B" 4%Z]
      ∧ (predict Demo.produce 3%Z w').2 = Return 8%Z.
Proof.
  assert (Hfp : Forall (λ k : string * string, k.1 ∈ dataflow (self Demo.two_steps))
                  (keys [(("B", "epochs"), 5%Q)])) by by_evaluation.
  split; [exact two_steps_dataflow_ok|]. split; [exact Hfp|].
  destruct (fit_runs_the_steps_in_order Demo.fit Demo.produce Demo.two_steps
              3%Z 0%Z [(("B", "epochs"), 5%Q)] two_steps_dataflow_ok Hfp)
    as (_ & _ & Hfit & Hpredict).
  eexists. split; [exact Hfit|]. split; [reflexivity|].
  rewrite (Hpredict 3%Z). reflexivity.
Defined.

(** A new hyperparameter for the learning rate of A is stored in A, and
    the models of A and of B are both rebuilt, each from the tunable
    hyperparameters of its step alone. *)
Lemma update_tunable_overwrites_then_rebuilds_witness :
  Forall (λ r, step_name (objects Demo.two_steps r)
               ∈ keys (steps_dict (self Demo.two_steps))) [3]
  ∧ ∃ w',
      update_tunable_hyperparams Demo.class_of Demo.construct [3] Demo.two_steps
      = (w', Return tt)
      ∧ getitem (steps_dict (self w')) "A" =
        Some (mkMLBlock "A" (Demo.mkPrimitive "AddOne" [] [("lr", 3)] 0)
                [("copy", 1%Q)] [("lr", 3)])
      ∧ getitem (steps_dict (self w')) "B" =
        Some (mkMLBlock "B"
                (Demo.mkPrimitive "TimesTwo" [] [("lr", 1); ("depth", 2)] 0)
                [("copy", 0%Q)] [("lr", 1); ("depth", 2)]).
Proof.
  assert (Hhps : Forall (λ r, step_name (objects Demo.two_steps r)
                              ∈ keys (steps_dict (self Demo.two_steps))) [3])
    by by_evaluation.
  split; [exact Hhps|].
  destruct (update_tunable_overwrites_then_rebuilds Demo.class_of Demo.construct
              Demo.two_steps [3] Hhps) as (w' & Hrun & _ & _ & Hsteps & _).
  exists w'. split; [exact Hrun|]. split.
  - exact (Hsteps "A" Demo.step_A eq_refl).
  - exact (Hsteps "B" Demo.step_B eq_refl).
Defined.

(** The claim as the specification has it fails: with an entry for step A
    before an entry for the unknown step Z, the call raises the lookup
    error, and the fixed hyperparameter and the model of A have changed. *)
Lemma update_fixed_changes_steps_before_the_error :
  ∃ w',
    update_fixed_hyperparams Demo.update_model
      [(("A", "copy"), 7%Q); (("Z", "copy"), 1%Q)] Demo.two_steps
    = (w', Raise (KeyError (KStr "Z")))
    ∧ getitem (steps_dict (self Demo.two_steps)) "A" =
      Some (mkMLBlock "A" (Demo.mkPrimitive "AddOne" [] [] 0)
              [("copy", 1%Q)] [("lr", 0)])
    ∧ getitem (steps_dict (self w')) "A" =
      Some (mkMLBlock "A" (Demo.mkPrimitive "AddOne" [("copy", 7%Q)] [("lr", 0)] 0)
              [("copy", 7%Q)] [("lr", 0)]).
Proof. eexists. split; [reflexivity|]. split; reflexivity. Qed.

(** The same call, as the code has it: the error names Z, step A has been
    updated, step B is as before. *)
Lemma update_fixed_raises_at_first_unknown_step_witness :
  keys [(("A", "copy"), 7%Q); (("Z", "copy"), 1%Q)]
  = [("A", "copy")] ++ ("Z", "copy") :: []
  ∧ Forall (λ k : string * string, k.1 ∈ keys (steps_dict (self Demo.two_steps)))
      [("A", "copy")]
  ∧ ("Z" ∉ keys (steps_dict (self Demo.two_steps)))
  ∧ ∃ w',
      update_fixed_hyperparams Demo.update_model
        [(("A", "copy"), 7%Q); (("Z", "copy"), 1%Q)] Demo.two_steps
      = (w', Raise (KeyError (KStr "Z")))
      ∧ getitem (steps_dict (self w')) "B"
        = getitem (steps_dict (self Demo.two_steps)) "B".
Proof.
  assert (Hpre : Forall (λ k : string * string,
                    k.1 ∈ keys (steps_dict (self Demo.two_steps))) [("A", "copy")])
    by by_evaluation.
  assert (HZ : "Z" ∉ keys (steps_dict (self Demo.two_steps))) by by_evaluation.
  split; [reflexivity|]. split; [exact Hpre|]. split; [exact HZ|].
  destruct (update_fixed_raises_at_first_unknown_step Demo.update_model
              [(("A", "copy"), 7%Q); (("Z", "copy"), 1%Q)]
              [("A", "copy")] [] "Z" "copy" Demo.two_steps eq_refl Hpre HZ)
    as (Hrun & _ & Hframe & _).
  eexists. split; [exact Hrun|]. apply (Hframe "B"). by_evaluation.
Defined.

(** The fixed hyperparameter [copy] of step A is set to 7. *)
Lemma update_fixed_then_get_fixed_witness :
  pipeline_ok (self Demo.two_steps)
  ∧ "A" ∈ keys (steps_dict (self Demo.two_steps))
  ∧ ∃ w' before after,
      get_fixed_hyperparams Demo.two_steps = (Demo.two_steps, Return before)
      ∧ update_fixed_hyperparams Demo.update_model [(("A", "copy"), 7%Q)] Demo.two_steps
        = (w', Return tt)
      ∧ get_fixed_hyperparams w' = (w', Return after)
      ∧ getitem after ("A", "copy") = Some 7%Q
      ∧ ∀ k, k ≠ ("A", "copy") → getitem after k = getitem before k.
Proof.
  assert (HA : "A" ∈ keys (steps_dict (self Demo.two_steps))) by by_evaluation.
  split; [exact two_steps_pipeline_ok|]. split; [exact HA|].
  exact (update_fixed_then_get_fixed Demo.update_model Demo.two_steps "A" "copy" 7%Q
           two_steps_pipeline_ok HA).
Defined.

(** The tunable hyperparameters of A and B, handed back as they are: step B
    keeps its two hyperparameters, and its model is rebuilt from them. *)
Lemma get_then_update_tunable_changes_nothing_witness :
  pipeline_ok (self Demo.two_steps)
  ∧ hyperparams_ok (objects Demo.two_steps) (self Demo.two_steps)
  ∧ ∃ hps w',
      get_tunable_hyperparams Demo.two_steps = (Demo.two_steps, Return hps)
      ∧ update_tunable_hyperparams Demo.class_of Demo.construct hps Demo.two_steps
        = (w', Return tt)
      ∧ objects w' = objects Demo.two_steps
      ∧ getitem (steps_dict (self w')) "B" =
        Some (mkMLBlock "B"
                (Demo.mkPrimitive "TimesTwo" [] [("lr", 1); ("depth", 2)] 0)
                [("copy", 0%Q)] [("lr", 1); ("depth", 2)]).
Proof.
  split; [exact two_steps_pipeline_ok|]. split; [exact two_steps_hyperparams_ok|].
  destruct (get_then_update_tunable_changes_nothing Demo.class_of Demo.construct
              Demo.two_steps two_steps_pipeline_ok two_steps_hyperparams_ok)
    as (hps & w' & Hget & Hrun & Hobj & _ & Hsteps & _).
  exists hps, w'. split; [exact Hget|]. split; [exact Hrun|]. split; [exact Hobj|].
  exact (Hsteps "B" Demo.step_B eq_refl).
Defined.

(** The claim as the specification has it fails: the hyperparameter
    [b__c] of step [a] has the value 1, and its key is mapped to 2, the value
    of the hyperparameter [c] of step [a__b]. *)
Lemma to_dict_colliding_keys :
  (to_dict Demo.colliding).2 = Return [("a__b__c", 2%Q)]
  ∧ all_tunable (self Demo.colliding) = [10; 11]
  ∧ dict_key (objects Demo.colliding) 10 = "a__b__c"
  ∧ value (objects Demo.colliding 10) = 1%Q.
Proof. repeat split; reflexivity. Qed.

(** The pipeline whose one tunable hyperparameter is [step1.alpha = 0.5]. *)
Lemma to_dict_keys_and_values_witness :
  ∃ d,
    to_dict Demo.one_alpha = (Demo.one_alpha, Return d)
    ∧ d = [("step1__alpha", 0.5%Q)]
    ∧ getitem d (dict_key (objects Demo.one_alpha) 20) = Some 0.5%Q.
Proof.
  destruct (to_dict_keys_and_values Demo.one_alpha) as (d & Hrun & _ & _ & _ & Hown).
  exists d. split; [exact Hrun|]. split.
  - assert (Hd : to_dict Demo.one_alpha
                 = (Demo.one_alpha, Return [("step1__alpha", 0.5%Q)])) by reflexivity.
    rewrite Hrun in Hd. by inversion Hd.
  - apply (Hown (λ r r' Hr Hr' _,
      eq_trans (f_equal (λ r, value (objects Demo.one_alpha r))
                  (proj1 (list_elem_of_singleton r 20) Hr))
               (eq_sym (f_equal (λ r, value (objects Demo.one_alpha r))
                  (proj1 (list_elem_of_singleton r' 20) Hr')))) 20).
    by_evaluation.
Defined.

(** Step B is in [steps_dict] and not in [dataflow]: a keyword argument for
    B makes [fit] raise, and nothing has happened. *)
Lemma fit_raises_on_step_outside_dataflow_witness :
  "B" ∈ keys (steps_dict (self Demo.only_A_runs))
  ∧ Exists (λ k : string * string, k.1 ∉ dataflow (self Demo.only_A_runs))
      (keys [(("B", "epochs"), 5%Q)])
  ∧ fit Demo.fit Demo.produce 3%Z 0%Z [(("B", "epochs"), 5%Q)] Demo.only_A_runs
    = (Demo.only_A_runs, Raise (KeyError (KStr "B"))).
Proof.
  assert (Hbad : Exists (λ k : string * string, k.1 ∉ dataflow (self Demo.only_A_runs))
                   (keys [(("B", "epochs"), 5%Q)])) by by_evaluation.
  split; [by_evaluation|]. split; [exact Hbad|].
  destruct (fit_raises_on_step_outside_dataflow Demo.fit Demo.produce
              Demo.only_A_runs 3%Z 0%Z [(("B", "epochs"), 5%Q)] Hbad)
    as (n & q & Hin & _ & Hrun).
  apply list_elem_of_singleton in Hin. inversion Hin; subst. exact Hrun.
Defined.

(** Two steps with a hyperparameter named [lr]: both get the value given
    for [lr], the other hyperparameter keeps its value. *)
Example set_from_hyperparam_dict_two_lr :
  let w' := (set_from_hyperparam_dict Demo.class_of Demo.construct
               [("lr", 0.01%Q)] Demo.two_steps).1 in
  objects w' 0 = mkMLHyperparam "A" "lr" 0.01%Q
  ∧ objects w' 1 = mkMLHyperparam "B" "lr" 0.01%Q
  ∧ objects w' 2 = mkMLHyperparam "B" "depth" 3%Q.
Proof. repeat split; reflexivity. Qed.

(** Two steps named A: the later one is kept, in the place of the first,
    and the default [dataflow] has the name twice. *)
Example init_with_a_repeated_name :
  init [Demo.step_A_old; Demo.step_B; Demo.step_A] None =
  mkMLPipeline [("A", Demo.step_A); ("B", Demo.step_B)] ["A"; "B"; "A"].
Proof. reflexivity. Qed.

(** * More theorems at work on concrete pipelines *)

Lemma two_steps_pipeline_inv :
  pipeline_inv (objects Demo.two_steps) (self Demo.two_steps).
Proof.
  split; [exact two_steps_pipeline_ok|].
  split; [exact two_steps_hyperparams_ok|exact two_steps_dataflow_ok].
Defined.

(** [dataflow] names A, C and B, and there is no step C: [predict 3] asks A
    to produce and raises the error for C. *)
Lemma predict_raises_at_first_missing_step_witness :
  dataflow (self MoreDemo.names_a_missing_step) = ["A"] ++ "C" :: ["B"]
  ∧ Forall (λ m, m ∈ keys (steps_dict (self MoreDemo.names_a_missing_step))) ["A"]
  ∧ ("C" ∉ keys (steps_dict (self MoreDemo.names_a_missing_step)))
  ∧ predict Demo.produce 3%Z MoreDemo.names_a_missing_step =
    (mkWorld (self MoreDemo.names_a_missing_step)
       (objects MoreDemo.names_a_missing_step) [CallProduce "A" 3%Z],
     Raise (KeyError (KStr "C"))).
Proof.
  assert (Hpre : Forall (λ m, m ∈ keys (steps_dict (self MoreDemo.names_a_missing_step)))
                   ["A"]) by by_evaluation.
  assert (HC : "C" ∉ keys (steps_dict (self MoreDemo.names_a_missing_step)))
    by by_evaluation.
  split; [reflexivity|]. split; [exact Hpre|]. split; [exact HC|].
  exact (predict_raises_at_first_missing_step Demo.produce
           MoreDemo.names_a_missing_step 3%Z ["A"] ["B"] "C" eq_refl Hpre HC).
Defined.

(** The same pipeline: [fit] fits A, asks it to produce, and raises the
    error for C; A stays fitted. *)
Lemma fit_raises_at_first_missing_step_witness :
  Forall (λ k : string * string, k.1 ∈ dataflow (self MoreDemo.names_a_missing_step))
    (keys (@nil ((string * string) * Q)))
  ∧ dataflow (self MoreDemo.names_a_missing_step) = ["A"] ++ "C" :: ["B"]
  ∧ Forall (λ m, m ∈ keys (steps_dict (self MoreDemo.names_a_missing_step))) ["A"]
  ∧ ("C" ∉ keys (steps_dict (self MoreDemo.names_a_missing_step)))
  ∧ ∃ w',
      fit Demo.fit Demo.produce 3%Z 0%Z [] MoreDemo.names_a_missing_step
      = (w', Raise (KeyError (KStr "C")))
      ∧ calls w' = [CallFit "A" 3%Z 0%Z []; CallProduce "A" 3%Z]
      ∧ getitem (steps_dict (self w')) "A" =
        Some (mkMLBlock "A" (Demo.mkPrimitive "AddOne" [] [] 1)
                [("copy", 1%Q)] [("lr", 0)]).
Proof.
  assert (Hpre : Forall (λ m, m ∈ keys (steps_dict (self MoreDemo.names_a_missing_step)))
                   ["A"]) by by_evaluation.
  assert (HC : "C" ∉ keys (steps_dict (self MoreDemo.names_a_missing_step)))
    by by_evaluation.
  assert (Hfp : Forall (λ k : string * string,
                   k.1 ∈ dataflow (self MoreDemo.names_a_missing_step))
                  (keys (@nil ((string * string) * Q)))) by constructor.
  split; [exact Hfp|]. split; [reflexivity|]. split; [exact Hpre|]. split; [exact HC|].
  eexists. split.
  - exact (fit_raises_at_first_missing_step Demo.fit Demo.produce
             MoreDemo.names_a_missing_step 3%Z 0%Z [] ["A"] ["B"] "C"
             Hfp eq_refl Hpre HC).
  - split; reflexivity.
Defined.

(** The fixed hyperparameters of A and B, read. *)
Lemma get_fixed_hyperparams_lookup_witness :
  pipeline_ok (self Demo.two_steps)
  ∧ ∃ d,
      get_fixed_hyperparams Demo.two_steps = (Demo.two_steps, Return d)
      ∧ getitem d ("A", "copy") = Some 1%Q
      ∧ getitem d ("A", "lr") = None
      ∧ getitem d ("C", "copy") = None.
Proof.
  split; [exact two_steps_pipeline_ok|].
  destruct (get_fixed_hyperparams_lookup Demo.two_steps two_steps_pipeline_ok)
    as (d & Hrun & _ & Hget).
  exists d. split; [exact Hrun|]. rewrite !Hget. repeat split; reflexivity.
Defined.

(** The three tunable hyperparameters of A and B. *)
Lemma get_tunable_hyperparams_are_distinct_witness :
  pipeline_ok (self Demo.two_steps)
  ∧ hyperparams_ok (objects Demo.two_steps) (self Demo.two_steps)
  ∧ ∃ hps,
      get_tunable_hyperparams Demo.two_steps = (Demo.two_steps, Return hps)
      ∧ hps = [0; 1; 2]
      ∧ NoDup hps.
Proof.
  split; [exact two_steps_pipeline_ok|]. split; [exact two_steps_hyperparams_ok|].
  destruct (get_tunable_hyperparams_are_distinct Demo.two_steps
              two_steps_pipeline_ok two_steps_hyperparams_ok)
    as (hps & Hrun & _ & _ & Hnodup).
  exists hps. split; [exact Hrun|]. split; [|exact Hnodup].
  assert (Hd : get_tunable_hyperparams Demo.two_steps
               = (Demo.two_steps, Return [0; 1; 2])) by reflexivity.
  rewrite Hrun in Hd. by inversion Hd.
Defined.

(** An entry for A and an entry for B that adds a hyperparameter. *)
Lemma update_fixed_applies_every_entry_witness :
  Forall (λ k : string * string, k.1 ∈ keys (steps_dict (self Demo.two_steps)))
    (keys [(("A", "copy"), 7%Q); (("B", "new"), 1%Q)])
  ∧ ∃ w' step',
      update_fixed_hyperparams Demo.update_model
        [(("A", "copy"), 7%Q); (("B", "new"), 1%Q)] Demo.two_steps
      = (w', Return tt)
      ∧ getitem (steps_dict (self w')) "B" = Some step'
      ∧ getitem (fixed_hyperparams step') "new" = Some 1%Q
      ∧ getitem (fixed_hyperparams step') "copy" = Some 0%Q
      ∧ tunable_hyperparams step' = [("lr", 1); ("depth", 2)].
Proof.
  assert (Hfh : Forall (λ k : string * string,
                   k.1 ∈ keys (steps_dict (self Demo.two_steps)))
                  (keys [(("A", "copy"), 7%Q); (("B", "new"), 1%Q)]))
    by by_evaluation.
  split; [exact Hfh|].
  destruct (update_fixed_applies_every_entry Demo.update_model Demo.two_steps
              [(("A", "copy"), 7%Q); (("B", "new"), 1%Q)] Hfh)
    as (w' & Hrun & _ & _ & _ & Hsteps).
  destruct (Hsteps "B" Demo.step_B eq_refl) as (step' & Hget & _ & Htun & Hfixed & _).
  exists w', step'. split; [exact Hrun|]. split; [exact Hget|].
  rewrite !Hfixed. repeat split; try reflexivity. exact Htun.
Defined.

(** The call that raises for the unknown step Z leaves the invariants in
    place. *)
Lemma update_fixed_keeps_the_invariants_witness :
  pipeline_inv (objects Demo.two_steps) (self Demo.two_steps)
  ∧ pipeline_inv
      (objects (update_fixed_hyperparams Demo.update_model
                  [(("A", "copy"), 7%Q); (("Z", "copy"), 1%Q)] Demo.two_steps).1)
      (self (update_fixed_hyperparams Demo.update_model
               [(("A", "copy"), 7%Q); (("Z", "copy"), 1%Q)] Demo.two_steps).1).
Proof.
  split; [exact two_steps_pipeline_inv|].
  exact (proj1 (update_fixed_keeps_the_invariants Demo.update_model Demo.two_steps
                  [(("A", "copy"), 7%Q); (("Z", "copy"), 1%Q)]
                  two_steps_pipeline_inv)).
Defined.

(** The second hyperparameter of the list names no step: the first is
    stored, the error is raised, and the model of A is the one it had. *)
Lemma update_tunable_raises_before_rebuild_witness :
  Forall (λ r, step_name (objects Demo.two_steps r)
               ∈ keys (steps_dict (self Demo.two_steps))) [3]
  ∧ (step_name (objects Demo.two_steps 4) ∉ keys (steps_dict (self Demo.two_steps)))
  ∧ ∃ w' step',
      update_tunable_hyperparams Demo.class_of Demo.construct ([3] ++ 4 :: [0])
        Demo.two_steps
      = (w', Raise (KeyError (KStr "")))
      ∧ getitem (steps_dict (self w')) "A" = Some step'
      ∧ model step' = Demo.mkPrimitive "AddOne" [] [] 0.
Proof.
  assert (Hpre : Forall (λ r, step_name (objects Demo.two_steps r)
                              ∈ keys (steps_dict (self Demo.two_steps))) [3])
    by by_evaluation.
  assert (H4 : step_name (objects Demo.two_steps 4)
               ∉ keys (steps_dict (self Demo.two_steps))) by by_evaluation.
  split; [exact Hpre|]. split; [exact H4|].
  destruct (update_tunable_raises_before_rebuild Demo.class_of Demo.construct
              Demo.two_steps [3] [0] 4 Hpre H4) as (w' & Hrun & Hmodels).
  destruct (Hmodels "A" Demo.step_A eq_refl) as (step' & Hget & Hmodel).
  exists w', step'. split; [exact Hrun|]. split; [exact Hget|exact Hmodel].
Defined.

(** A new hyperparameter for A, then one that names no step. *)
Lemma update_tunable_keeps_the_invariants_witness :
  pipeline_inv (objects Demo.two_steps) (self Demo.two_steps)
  ∧ pipeline_inv
      (objects (update_tunable_hyperparams Demo.class_of Demo.construct [3; 4]
                  Demo.two_steps).1)
      (self (update_tunable_hyperparams Demo.class_of Demo.construct [3; 4]
               Demo.two_steps).1).
Proof.
  split; [exact two_steps_pipeline_inv|].
  exact (proj1 (update_tunable_keeps_the_invariants Demo.class_of Demo.construct
                  Demo.two_steps [3; 4] two_steps_pipeline_inv)).
Defined.

(** A value for [lr] and a value for a name that no hyperparameter has. *)
Lemma set_from_hyperparam_dict_returns_witness :
  pipeline_inv (objects Demo.two_steps) (self Demo.two_steps)
  ∧ ∃ w',
      set_from_hyperparam_dict Demo.class_of Demo.construct
        [("lr", 0.01%Q); ("momentum", 1%Q)] Demo.two_steps
      = (w', Return tt)
      ∧ objects w' 0 = mkMLHyperparam "A" "lr" 0.01%Q
      ∧ objects w' 1 = mkMLHyperparam "B" "lr" 0.01%Q
      ∧ objects w' 2 = mkMLHyperparam "B" "depth" 3%Q.
Proof.
  split; [exact two_steps_pipeline_inv|].
  destruct (set_from_hyperparam_dict_returns Demo.class_of Demo.construct
              Demo.two_steps [("lr", 0.01%Q); ("momentum", 1%Q)]
              two_steps_pipeline_inv) as (w' & Hrun & Hobj & _).
  exists w'. split; [exact Hrun|]. rewrite !Hobj. repeat split; reflexivity.
Defined.

(** [fit] on the steps A and B. *)
Lemma fit_keeps_the_invariants_witness :
  pipeline_inv (objects Demo.two_steps) (self Demo.two_steps)
  ∧ pipeline_inv
      (objects (fit Demo.fit Demo.produce 3%Z 0%Z [] Demo.two_steps).1)
      (self (fit Demo.fit Demo.produce 3%Z 0%Z [] Demo.two_steps).1).
Proof.
  split; [exact two_steps_pipeline_inv|].
  exact (fit_keeps_the_invariants Demo.fit Demo.produce Demo.two_steps 3%Z 0%Z []
           two_steps_pipeline_inv).
Defined.

(** Three steps, two of them named A. *)
Lemma init_makes_the_invariants_hold_witness :
  Forall (step_ok Demo.the_objects) [Demo.step_A_old; Demo.step_B; Demo.step_A]
  ∧ pipeline_inv Demo.the_objects
      (init [Demo.step_A_old; Demo.step_B; Demo.step_A] None).
Proof.
  assert (Hsteps : Forall (step_ok Demo.the_objects)
                     [Demo.step_A_old; Demo.step_B; Demo.step_A]).
  { unfold step_ok, wf. by_evaluation. }
  split; [exact Hsteps|].
  exact (init_makes_the_invariants_hold Demo.the_objects
           [Demo.step_A_old; Demo.step_B; Demo.step_A] None Hsteps I).
Defined.

(** The steps A and B: three hyperparameters, three keys. *)
Lemma to_dict_has_every_hyperparameter_witness :
  pipeline_ok (self Demo.two_steps)
  ∧ hyperparams_ok (objects Demo.two_steps) (self Demo.two_steps)
  ∧ Forall (λ n, no_underscore n = true) (keys (steps_dict (self Demo.two_steps)))
  ∧ to_dict Demo.two_steps =
    (Demo.two_steps,
     Return [("A__lr", 0.1%Q); ("B__lr", 0.2%Q); ("B__depth", 3%Q)]).
Proof.
  assert (Hnames : Forall (λ n, no_underscore n = true)
                     (keys (steps_dict (self Demo.two_steps)))).
  { repeat constructor. }
  split; [exact two_steps_pipeline_ok|]. split; [exact two_steps_hyperparams_ok|].
  split; [exact Hnames|].
  exact (proj1 (to_dict_has_every_hyperparameter Demo.two_steps
                  two_steps_pipeline_ok two_steps_hyperparams_ok Hnames)).
Defined.

(** Metadata of a Keras layer. *)
Lemma get_parser_goes_by_the_class_prefix_witness :
  MoreDemo.dense_json
  = Loading.JObject [("name", Loading.JString "dense");
                     ("class", Loading.JString "keras.layers.Dense")]
  ∧ Loading.get_parser MoreDemo.MLJsonParser MoreDemo.KerasJsonParser
      MoreDemo.dense_json
    = Loading.Done (MoreDemo.Keras MoreDemo.dense_json).
Proof.
  split; [reflexivity|].
  exact (proj1 (get_parser_goes_by_the_class_prefix MoreDemo.MLJsonParser
                  MoreDemo.KerasJsonParser MoreDemo.dense_json _
                  "keras.layers.Dense" (MoreDemo.Generic MoreDemo.dense_json)
                  eq_refl eq_refl eq_refl)
           (ex_intro _ ".layers.Dense" eq_refl)).
Defined.

(** Two metadata objects, two steps. *)
Lemma from_json_metadata_builds_the_steps_in_order_witness :
  ∃ p,
    Loading.from_json_metadata MoreDemo.MLJsonParser MoreDemo.KerasJsonParser
      MoreDemo.build_mlblock [MoreDemo.add_one_json; MoreDemo.dense_json]
    = Loading.Done p
    ∧ dataflow p = ["A"; "dense"]
    ∧ dataflow_ok p.
Proof.
  destruct (from_json_metadata_builds_the_steps_in_order MoreDemo.MLJsonParser
              MoreDemo.KerasJsonParser MoreDemo.build_mlblock
              [MoreDemo.add_one_json; MoreDemo.dense_json]
              [mkMLBlock "A" (Demo.mkPrimitive "AddOne" [] [] 0) [] [];
               mkMLBlock "dense" (Demo.mkPrimitive "keras.layers.Dense" [] [] 0) [] []])
    as (p & Hrun & _ & Hdf & Hok).
  { constructor; [reflexivity|]. constructor; [reflexivity|constructor]. }
  exists p. split; [exact Hrun|]. split; [exact Hdf|exact Hok].
Defined.

(** The second metadata object is no object. *)
Lemma from_json_metadata_fails_at_the_first_bad_metadata_witness :
  Loading.from_json_metadata MoreDemo.MLJsonParser MoreDemo.KerasJsonParser
    MoreDemo.build_mlblock ([MoreDemo.add_one_json] ++ Loading.JNull :: [MoreDemo.dense_json])
  = Loading.Failed Loading.Type_error.
Proof.
  apply (from_json_metadata_fails_at_the_first_bad_metadata MoreDemo.MLJsonParser
           MoreDemo.KerasJsonParser MoreDemo.build_mlblock
           [MoreDemo.add_one_json] [MoreDemo.dense_json] Loading.JNull
           [mkMLBlock "A" (Demo.mkPrimitive "AddOne" [] [] 0) [] []]).
  - constructor; [reflexivity|constructor].
  - reflexivity.
Defined.

(** The second file cannot be loaded. *)
Lemma from_json_filepaths_loads_before_it_parses_witness :
  Loading.from_json_filepaths MoreDemo.MLJsonParser MoreDemo.KerasJsonParser
    MoreDemo.build_mlblock MoreDemo.load
    ([MoreDemo.add_one_path] ++ MoreDemo.broken_path :: [MoreDemo.dense_path])
  = Loading.Failed (Loading.Raised "cannot load").
Proof.
  apply (from_json_filepaths_loads_before_it_parses MoreDemo.MLJsonParser
           MoreDemo.KerasJsonParser MoreDemo.build_mlblock MoreDemo.load
           [MoreDemo.add_one_path] [MoreDemo.dense_path] MoreDemo.broken_path
           [MoreDemo.add_one_json]).
  - constructor; [reflexivity|constructor].
  - reflexivity.
Defined.

(** There is no file for the second name, and the file of the third name
    or what it holds does not matter. *)
Lemma from_dm_json_names_the_first_missing_file_witness :
  Loading.from_dm_json MoreDemo.MLJsonParser MoreDemo.KerasJsonParser
    MoreDemo.build_mlblock MoreDemo.isfile MoreDemo.load MoreDemo.path_join
    MoreDemo.current_dir (["add_one"] ++ "sub_one" :: ["broken"])
  = Loading.Failed (Loading.Value_error
      "No JSON corresponding to the specified name (sub_one) exists.").
Proof.
  apply (from_dm_json_names_the_first_missing_file MoreDemo.MLJsonParser
           MoreDemo.KerasJsonParser MoreDemo.build_mlblock MoreDemo.isfile
           MoreDemo.load MoreDemo.path_join MoreDemo.current_dir
           ["add_one"] ["broken"] "sub_one").
  - constructor; [reflexivity|constructor].
  - reflexivity.
Defined.

(** Two names, two files, two steps. *)
Lemma from_dm_json_builds_the_pipeline_witness :
  Loading.from_dm_json MoreDemo.MLJsonParser MoreDemo.KerasJsonParser
    MoreDemo.build_mlblock MoreDemo.isfile MoreDemo.load MoreDemo.path_join
    MoreDemo.current_dir ["add_one"; "dense"]
  = Loading.Done
      (mkMLPipeline
         [("A", mkMLBlock "A" (Demo.mkPrimitive "AddOne" [] [] 0) [] []);
          ("dense",
           mkMLBlock "dense" (Demo.mkPrimitive "keras.layers.Dense" [] [] 0) [] [])]
         ["A"; "dense"]).
Proof.
  apply (proj1 (from_dm_json_builds_the_pipeline MoreDemo.MLJsonParser
           MoreDemo.KerasJsonParser MoreDemo.build_mlblock MoreDemo.isfile
           MoreDemo.load MoreDemo.path_join MoreDemo.current_dir
           ["add_one"; "dense"] [MoreDemo.add_one_json; MoreDemo.dense_json]
           [mkMLBlock "A" (Demo.mkPrimitive "AddOne" [] [] 0) [] [];
            mkMLBlock "dense" (Demo.mkPrimitive "keras.layers.Dense" [] [] 0) [] []]
           ltac:(repeat constructor)
           ltac:(repeat (constructor; try reflexivity))
           ltac:(repeat (constructor; try reflexivity)))).
Defined.
